(** * Texas Hold'em odds calculator: embedding of [poker-odds-calculator.js]

    The development follows the source file top to bottom: the card codec
    ([parseCard], [getRank], [getSuit]), the seven-card evaluator
    ([countRanks], [countSuits], [isStraight], [isFlush], [evaluateHand],
    [compareHands]) and the Monte Carlo engine ([shuffleArray],
    [calculatePokerOdds]).

    Modelling choices.
    - Encoded cards, ranks, suits and counters are JavaScript Numbers that
      hold integers far below 2^53; they are modelled as [Z].
    - The percentages are IEEE 754 binary64 values; they are modelled by
      [spec_float] at precision 53 and maximal exponent 1024, whose
      operations are the correctly rounded ones.
    - A [Map] is an insertion-ordered association list, an array is a list.
    - [Math.random] is an oracle threaded through the engine together with
      the number of calls made so far. *)

From Stdlib Require Import String Ascii ZArith List Bool Lia.
From Stdlib Require Import Floats.SpecFloat.
From Stdlib Require Import Sorting.Permutation Sorting.Sorted.
From Stdlib Require Import Orders Sorting.Mergesort Lists.Finite.
Import ListNotations.
Local Open Scope Z_scope.

(** ** JavaScript values and containers used by the source *)

Module JS.

(** The values a property lookup followed by arithmetic can produce. *)
Inductive value : Type :=
| Num (z : Z)
| NaN
| Undefined.

(** [a * b] and [a + b] on Numbers; [undefined] converts to [NaN]. *)
Definition mul (a b : value) : value :=
  match a, b with
  | Num x, Num y => Num (x * y)
  | _, _ => NaN
  end.

Definition add (a b : value) : value :=
  match a, b with
  | Num x, Num y => Num (x + y)
  | _, _ => NaN
  end.

(** [obj[key]] on an object literal with one-character keys; the key is
    [None] when the string index was past the end ([undefined]). *)
Fixpoint prop (obj : list (ascii * Z)) (key : option ascii) : value :=
  match obj, key with
  | (k, v) :: rest, Some c => if Ascii.eqb c k then Num v else prop rest key
  | _, _ => Undefined
  end.

(** [Map.prototype.get] and [Map.prototype.set]; a [Map] keeps its keys in
    insertion order and [set] on a present key keeps its position. *)
Definition Map := list (Z * Z).

Fixpoint get (m : Map) (k : Z) : option Z :=
  match m with
  | [] => None
  | (k', v) :: rest => if k =? k' then Some v else get rest k
  end.

Fixpoint set (m : Map) (k v : Z) : Map :=
  match m with
  | [] => [(k, v)]
  | (k', v') :: rest =>
      if k =? k' then (k', v) :: rest else (k', v') :: set rest k v
  end.

Definition values (m : Map) : list Z := List.map snd m.
Definition entries (m : Map) : list (Z * Z) := m.

(** [x || 0] where [x] is the result of [get]: [undefined] and [0] are
    falsy. *)
Definition or0 (x : option Z) : Z :=
  match x with
  | Some v => if v =? 0 then 0 else v
  | None => 0
  end.

(** [array.includes(x)] on an array of integers. *)
Definition includes (l : list Z) (x : Z) : bool := existsb (Z.eqb x) l.

(** [Array.from(new Set(l))]: the first occurrences, in order. *)
Definition set_add (s : list Z) (x : Z) : list Z :=
  if includes s x then s else s ++ [x].

Definition from_set (l : list Z) : list Z := fold_left set_add l [].

(** [array.sort(cmp)]. The comparators of this program are consistent on
    the integers they receive, so the result is the stable sorted
    arrangement; it is computed here by insertion. *)
Fixpoint insert {A : Type} (cmp : A -> A -> Z) (x : A) (l : list A) : list A :=
  match l with
  | [] => [x]
  | y :: rest => if cmp x y <=? 0 then x :: l else y :: insert cmp x rest
  end.

Definition sort {A : Type} (cmp : A -> A -> Z) (l : list A) : list A :=
  fold_right (insert cmp) [] l.

(** [l[i] === v]; an index past the end yields [undefined], never equal
    to a number. *)
Definition at_is (l : list Z) (i : nat) (v : Z) : bool :=
  match nth_error l i with
  | Some x => x =? v
  | None => false
  end.

End JS.

(** ** Card codec *)

(** [HAND_RANKS] *)
Definition HIGH_CARD : Z := 0.
Definition ONE_PAIR : Z := 1.
Definition TWO_PAIR : Z := 2.
Definition THREE_OF_A_KIND : Z := 3.
Definition STRAIGHT : Z := 4.
Definition FLUSH : Z := 5.
Definition FULL_HOUSE : Z := 6.
Definition FOUR_OF_A_KIND : Z := 7.
Definition STRAIGHT_FLUSH : Z := 8.
Definition ROYAL_FLUSH : Z := 9.

Definition SUIT_MAP : list (ascii * Z) :=
  [("s"%char, 0); ("h"%char, 1); ("d"%char, 2); ("c"%char, 3)].

Definition RANK_MAP : list (ascii * Z) :=
  [("2"%char, 0); ("3"%char, 1); ("4"%char, 2); ("5"%char, 3);
   ("6"%char, 4); ("7"%char, 5); ("8"%char, 6); ("9"%char, 7);
   ("T"%char, 8); ("J"%char, 9); ("Q"%char, 10); ("K"%char, 11);
   ("A"%char, 12)].

Definition parseCard (cardStr : string) : JS.value :=
  let rankStr := String.get 0 cardStr in
  let suitStr := String.get 1 cardStr in
  let rank := JS.prop RANK_MAP rankStr in
  let suit := JS.prop SUIT_MAP suitStr in
  JS.add (JS.mul suit (JS.Num 13)) rank.

Definition parseCards (cardStrs : list string) : list JS.value :=
  List.map parseCard cardStrs.

(** [card % 13]: the remainder takes the sign of the dividend. *)
Definition getRank (card : Z) : Z := Z.rem card 13.

(** [Math.floor(card / 13)] *)
Definition getSuit (card : Z) : Z := card / 13.

(** ** Hand evaluator *)

Definition countRanks (cards : list Z) : JS.Map :=
  fold_left
    (fun rankCounts card =>
       let rank := getRank card in
       JS.set rankCounts rank (JS.or0 (JS.get rankCounts rank) + 1))
    cards [].

Definition countSuits (cards : list Z) : JS.Map :=
  fold_left
    (fun suitCounts card =>
       let suit := getSuit card in
       JS.set suitCounts suit (JS.or0 (JS.get suitCounts suit) + 1))
    cards [].

(** The inner loop of [isStraight]: [uniqueRanks[i + j] === uniqueRanks[i] + j]
    for [j = 1 .. 4]. *)
Definition isConsecutive (uniqueRanks : list Z) (i : nat) : bool :=
  forallb
    (fun j =>
       match nth_error uniqueRanks (i + j), nth_error uniqueRanks i with
       | Some a, Some b => a =? b + Z.of_nat j
       | _, _ => false
       end)
    [1; 2; 3; 4]%nat.

(** The outer loop visits [i = 0 .. uniqueRanks.length - 5]; there is no
    such [i] when fewer than five distinct ranks are present. *)
Definition isStraight (ranks : list Z) : bool :=
  let uniqueRanks := JS.sort (fun a b => a - b) (JS.from_set ranks) in
  if JS.includes uniqueRanks 12 && JS.includes uniqueRanks 0 &&
     JS.includes uniqueRanks 1 && JS.includes uniqueRanks 2 &&
     JS.includes uniqueRanks 3
  then true
  else existsb (isConsecutive uniqueRanks)
               (seq 0 (length uniqueRanks - 4)).

Definition isFlush (cards : list Z) : bool :=
  let suitCounts := countSuits cards in
  existsb (fun count => 5 <=? count) (JS.values suitCounts).

Record HandEvaluation : Type := mkHand {
  rank : Z;
  keyRanks : list Z
}.

Definition evaluateHand (cards : list Z) : HandEvaluation :=
  let ranks := List.map getRank cards in
  let rankCounts := countRanks cards in
  let flush := isFlush cards in
  let straight := isStraight ranks in
  let sortedCounts := JS.sort (fun a b => b - a) (JS.values rankCounts) in
  let handRank :=
    if flush && straight then
      let hasTen := JS.includes ranks 8 in
      let hasJack := JS.includes ranks 9 in
      let hasQueen := JS.includes ranks 10 in
      let hasKing := JS.includes ranks 11 in
      let hasAce := JS.includes ranks 12 in
      if hasTen && hasJack && hasQueen && hasKing && hasAce
      then ROYAL_FLUSH
      else STRAIGHT_FLUSH
    else if JS.at_is sortedCounts 0 4 then FOUR_OF_A_KIND
    else if JS.at_is sortedCounts 0 3 && JS.at_is sortedCounts 1 2
         then FULL_HOUSE
    else if flush then FLUSH
    else if straight then STRAIGHT
    else if JS.at_is sortedCounts 0 3 then THREE_OF_A_KIND
    else if JS.at_is sortedCounts 0 2 && JS.at_is sortedCounts 1 2
         then TWO_PAIR
    else if JS.at_is sortedCounts 0 2 then ONE_PAIR
    else HIGH_CARD in
  let keyRanks :=
    List.map fst
      (JS.sort
         (fun a b =>
            if negb (snd b =? snd a) then snd b - snd a else fst b - fst a)
         (JS.entries rankCounts)) in
  {| rank := handRank; keyRanks := keyRanks |}.

(** The loop of [compareHands] runs over the indices of [hand1.keyRanks];
    where [hand2.keyRanks[i]] is [undefined] both comparisons are false and
    the loop moves on. *)
Fixpoint compareKeys (k1 k2 : list Z) : Z :=
  match k1 with
  | [] => 0
  | x :: k1' =>
      match k2 with
      | [] => compareKeys k1' []
      | y :: k2' =>
          if x >? y then 1
          else if x <? y then -1
          else compareKeys k1' k2'
      end
  end.

Definition compareHands (hand1 hand2 : HandEvaluation) : Z :=
  if rank hand1 >? rank hand2 then 1
  else if rank hand1 <? rank hand2 then -1
  else compareKeys (keyRanks hand1) (keyRanks hand2).

(** ** Numbers of the aggregation step: IEEE 754 binary64 *)

Module Float.

Definition prec : Z := 53.
Definition emax : Z := 1024.

(** The Number holding the integer [z] (correctly rounded beyond 2^53). *)
Definition of_Z (z : Z) : spec_float := binary_normalize prec emax z 0 false.

Definition div : spec_float -> spec_float -> spec_float := SFdiv prec emax.
Definition mul : spec_float -> spec_float -> spec_float := SFmul prec emax.
Definition sub : spec_float -> spec_float -> spec_float := SFsub prec emax.
Definition add : spec_float -> spec_float -> spec_float := SFadd prec emax.

Definition is_nan (x : spec_float) : bool :=
  match x with
  | S754_nan => true
  | _ => false
  end.

(** The integer [n] for which [n / 100] is closest to [m * 2^e], the
    larger one when two are equally close: the digits that
    [Number.prototype.toFixed(2)] prints. *)
Definition hundredths (m : positive) (e : Z) : Z :=
  if 0 <=? e then 100 * Z.pos m * 2 ^ e
  else (200 * Z.pos m + 2 ^ (- e)) / 2 ^ (- e + 1).

(** [parseFloat(x.toFixed(2))]. [toFixed] prints [NaN], the infinities and
    magnitudes from 10^21 on as [String(x)] does, which [parseFloat] reads
    back as [x]; it prints zero of either sign as [0.00]; otherwise it
    prints the sign and [hundredths], and [parseFloat] returns the Number
    closest to that decimal. *)
Definition toFixed2 (x : spec_float) : spec_float :=
  match x with
  | S754_nan => S754_nan
  | S754_infinity s => S754_infinity s
  | S754_zero _ => S754_zero false
  | S754_finite s m e =>
      if (0 <=? e) && (10 ^ 21 <=? Z.pos m * 2 ^ e) then x
      else
        match hundredths m e with
        | Z.pos n => div (S754_finite s n 0) (S754_finite false 100 0)
        | _ => S754_zero s
        end
  end.

End Float.

(** ** Simulation engine *)

(** The random source. [Math.floor(Math.random() * (i + 1))] is an integer
    between [0] and [i]; which one is decided by the oracle [draw] at the
    number of the call. [calls] counts the calls of [Math.random] so far. *)
Record Rng : Type := mkRng {
  draw : nat -> nat;
  calls : nat
}.

Definition random_index (g : Rng) (bound : nat) : nat * Rng :=
  (Nat.modulo (draw g (calls g)) bound,
   {| draw := draw g; calls := S (calls g) |}).

(** [array[i] = v] for an index inside the array. *)
Fixpoint assign (array : list Z) (i : nat) (v : Z) : list Z :=
  match array, i with
  | [], _ => []
  | _ :: rest, O => v :: rest
  | x :: rest, S i' => x :: assign rest i' v
  end.

(** [[a[i], a[j]] = [a[j], a[i]]] *)
Definition swap (a : list Z) (i j : nat) : list Z :=
  let ai := nth i a 0 in
  let aj := nth j a 0 in
  assign (assign a i aj) j ai.

(** The loop of [shuffleArray], from [i] down to [1]. *)
Fixpoint shuffleFrom (newArray : list Z) (i : nat) (g : Rng) : list Z * Rng :=
  match i with
  | O => (newArray, g)
  | S i' =>
      let (j, g') := random_index g (i + 1) in
      shuffleFrom (swap newArray i j) i' g'
  end.

Definition shuffleArray (array : list Z) (g : Rng) : list Z * Rng :=
  shuffleFrom array (length array - 1) g.

(** The three [throw new Error(...)] of the validation step, by the
    condition that raises them. *)
Inductive InvalidInput : Type :=
| HoleCardCount
| CommunityCardCount
| OpponentCount.

(** How a call ends. [SortUnspecified] stands for the runs in which a card
    string did not parse and a trial is played: the evaluator then sorts an
    array holding [NaN] with a comparator that returns [NaN], an order that
    ECMAScript leaves to the engine and that is not modelled. *)
Inductive completion (A : Type) : Type :=
| Normal (a : A)
| Throw (e : InvalidInput)
| SortUnspecified.
Arguments Normal {A} a.
Arguments Throw {A} e.
Arguments SortUnspecified {A}.

Record SimulationResult : Type := mkResult {
  win : spec_float;
  tie : spec_float;
  lose : spec_float;
  simulations : Z
}.

(** [knownCards.includes(card)] for an integer [card]. *)
Definition includesCard (knownCards : list JS.value) (card : Z) : bool :=
  existsb
    (fun k => match k with JS.Num z => z =? card | _ => false end)
    knownCards.

(** The integers held by an array of parsed cards, when all parsed. *)
Fixpoint numbers (l : list JS.value) : option (list Z) :=
  match l with
  | [] => Some []
  | JS.Num z :: rest =>
      match numbers rest with
      | Some zs => Some (z :: zs)
      | None => None
      end
  | _ :: _ => None
  end.

(** The dealing loop: each opponent takes [shuffledDeck[cardIndex++]]
    twice. Returns the hole cards and the final [cardIndex]. *)
Fixpoint dealOpponents (shuffledDeck : list Z) (opponents cardIndex : nat)
  : list (list Z) * nat :=
  match opponents with
  | O => ([], cardIndex)
  | S rest =>
      let hole := [nth cardIndex shuffledDeck 0;
                   nth (cardIndex + 1) shuffledDeck 0] in
      let (others, last) := dealOpponents shuffledDeck rest (cardIndex + 2) in
      (hole :: others, last)
  end.

(** The comparison loop of one trial, with its [break] on the first
    opponent that beats the subject. *)
Fixpoint compareOpponents (myBestHand : HandEvaluation)
    (finalCommunityCards : list Z) (opponentsCards : list (list Z))
    (isWinner hasTie : bool) : bool * bool :=
  match opponentsCards with
  | [] => (isWinner, hasTie)
  | opponentHoleCards :: rest =>
      let opponentFinalHand := opponentHoleCards ++ finalCommunityCards in
      let opponentBestHand := evaluateHand opponentFinalHand in
      let comparison := compareHands myBestHand opponentBestHand in
      if comparison <? 0 then (false, hasTie)
      else if comparison =? 0
           then compareOpponents myBestHand finalCommunityCards rest isWinner true
           else compareOpponents myBestHand finalCommunityCards rest isWinner hasTie
  end.

(** The counters after the update that ends a trial. *)
Definition updateCounters (flags : bool * bool) (counters : Z * Z) : Z * Z :=
  let (isWinner, hasTie) := flags in
  let (wins, ties) := counters in
  if isWinner then
    if hasTie then (wins, ties + 1) else (wins + 1, ties)
  else (wins, ties).

(** One pass through the body of the main loop. *)
Definition trial (myCardsEncoded communityCardsEncoded remainingDeck : list Z)
    (opponentCount : Z) (counters : Z * Z) (g : Rng) : (Z * Z) * Rng :=
  let (shuffledDeck, g') := shuffleArray remainingDeck g in
  let (opponentsCards, cardIndex) :=
    dealOpponents shuffledDeck (Z.to_nat opponentCount) 0 in
  let remainingCommunityCardsNeeded := (5 - length communityCardsEncoded)%nat in
  let simulatedCommunityCards :=
    firstn remainingCommunityCardsNeeded (skipn cardIndex shuffledDeck) in
  let finalCommunityCards := communityCardsEncoded ++ simulatedCommunityCards in
  let myFinalHand := myCardsEncoded ++ finalCommunityCards in
  let myBestHand := evaluateHand myFinalHand in
  let flags :=
    compareOpponents myBestHand finalCommunityCards opponentsCards true false in
  (updateCounters flags counters, g').

(** The main loop, [n] passes. *)
Fixpoint trials (n : nat) (myCardsEncoded communityCardsEncoded
    remainingDeck : list Z) (opponentCount : Z) (counters : Z * Z) (g : Rng)
  : (Z * Z) * Rng :=
  match n with
  | O => (counters, g)
  | S n' =>
      let (counters', g') :=
        trial myCardsEncoded communityCardsEncoded remainingDeck
              opponentCount counters g in
      trials n' myCardsEncoded communityCardsEncoded remainingDeck
             opponentCount counters' g'
  end.

(** Steps 6 and 7: the percentages and the returned record. *)
Definition aggregate (wins ties simulations : Z) : SimulationResult :=
  let winPercentage :=
    Float.mul (Float.div (Float.of_Z wins) (Float.of_Z simulations))
              (Float.of_Z 100) in
  let tiePercentage :=
    Float.mul (Float.div (Float.of_Z ties) (Float.of_Z simulations))
              (Float.of_Z 100) in
  let losePercentage :=
    Float.sub (Float.sub (Float.of_Z 100) winPercentage) tiePercentage in
  {| win := Float.toFixed2 winPercentage;
     tie := Float.toFixed2 tiePercentage;
     lose := Float.toFixed2 losePercentage;
     simulations := simulations |}.

(** [for (let i = 0; i < simulations; i++)] runs its body
    [Z.to_nat simulations] times, not at all when [simulations <= 0]. *)
Definition calculatePokerOdds (myCards communityCards : list string)
    (opponentCount simulations : Z) (g : Rng)
  : completion SimulationResult * Rng :=
  let myCardsEncoded := parseCards myCards in
  let communityCardsEncoded := parseCards communityCards in
  if negb (length myCardsEncoded =? 2)%nat then (Throw HoleCardCount, g)
  else if (length communityCardsEncoded <? 0)%nat
          || (5 <? length communityCardsEncoded)%nat
       then (Throw CommunityCardCount, g)
  else if (opponentCount <? 1) || (opponentCount >? 8)
       then (Throw OpponentCount, g)
  else
    let fullDeck := List.map Z.of_nat (seq 0 52) in
    let knownCards := myCardsEncoded ++ communityCardsEncoded in
    let remainingDeck :=
      filter (fun card => negb (includesCard knownCards card)) fullDeck in
    if simulations <=? 0 then (Normal (aggregate 0 0 simulations), g)
    else
      match numbers myCardsEncoded, numbers communityCardsEncoded with
      | Some my, Some community =>
          let '(wins, ties, g') :=
            trials (Z.to_nat simulations) my community remainingDeck
                   opponentCount (0, 0) g in
          (Normal (aggregate wins ties simulations), g')
      | _, _ => (SortUnspecified, g)
      end.

(** ** Concrete inputs used below *)

(** Card codes by rank character and suit, as [parseCard] returns them. *)
Definition card (rank suit : Z) : Z := suit * 13 + rank.

(** 9s Ts Js Qs Ks Ah 2d *)
Definition kingHighStraightFlush : list Z :=
  [card 7 0; card 8 0; card 9 0; card 10 0; card 11 0; card 12 1; card 0 2].

(** As 2s 3h 4d 5c 9h 9d *)
Definition wheelHand : list Z :=
  [card 12 0; card 0 0; card 1 1; card 2 2; card 3 3; card 7 1; card 7 2].

(** Ks As 2h 3d 4c 9h 9d *)
Definition wrapHand : list Z :=
  [card 11 0; card 12 0; card 0 1; card 1 2; card 2 3; card 7 1; card 7 2].

(** Ks As 2s 3s 4s 9h 9d *)
Definition wrapFlushHand : list Z :=
  [card 11 0; card 12 0; card 0 0; card 1 0; card 2 0; card 7 1; card 7 2].

(** Jd 3c and 3d 2c on the board Ks Kh Qs Qh Jc *)
Definition threePairHand : list Z :=
  [card 9 2; card 1 3; card 11 0; card 11 1; card 10 0; card 10 1; card 9 3].
Definition twoPairHand : list Z :=
  [card 1 2; card 0 3; card 11 0; card 11 1; card 10 0; card 10 1; card 9 3].

(** Ah 3d and As 2c on the board 9s Ts Js Qs Ks *)
Definition aceOffSuitHand : list Z :=
  [card 12 1; card 1 2; card 7 0; card 8 0; card 9 0; card 10 0; card 11 0].
Definition aceHighStraightFlush : list Z :=
  [card 12 0; card 0 3; card 7 0; card 8 0; card 9 0; card 10 0; card 11 0].

(** The board 5s 5h 5d 5c 9s, with the hole cards 9h 9d and 9c Ah *)
Definition quadsBoard : list Z :=
  [card 3 0; card 3 1; card 3 2; card 3 3; card 7 0].
Definition nineKickerHand : list Z := [card 7 1; card 7 2] ++ quadsBoard.
Definition aceKickerHand : list Z := [card 7 3; card 12 1] ++ quadsBoard.

(** An oracle for one trial on a deck of 45 cards (44 draws). A draw of
    [i] at step [i] leaves the array as it is; with 9h 9d and the board
    5s 5h 5d 5c 9s removed from the deck, 9c is at index 39 and Ah at
    index 21, and the two draws below bring them to the front. *)
Definition kickerDraw (k : nat) : nat :=
  let i := (44 - k)%nat in
  match i with
  | 39%nat => 0%nat
  | 21%nat => 1%nat
  | _ => i
  end.

Definition kickerRng : Rng := {| draw := kickerDraw; calls := 0 |}.

(** An oracle for three trials on a deck of 45 cards (44 draws each). A
    draw of [i] at step [i] leaves the array as it is. Trial 0 brings Kc
    and Ah to the front, trial 1 keeps the deck in order, trial 2 brings
    2d and 2h to the front. *)
Definition tieWinLossDraw (k : nat) : nat :=
  let t := Nat.div k 44 in
  let i := (44 - Nat.modulo k 44)%nat in
  match t, i with
  | 0%nat, 43%nat => 0%nat
  | 0%nat, 21%nat => 1%nat
  | 2%nat, 22%nat => 0%nat
  | 2%nat, 10%nat => 1%nat
  | _, _ => i
  end.

Definition tieWinLossRng : Rng := {| draw := tieWinLossDraw; calls := 0 |}.

(** The recognised characters, as the interface lists them. *)
Definition rankChars : list ascii :=
  ["2"; "3"; "4"; "5"; "6"; "7"; "8"; "9"; "T"; "J"; "Q"; "K"; "A"]%char.
Definition suitChars : list ascii := ["s"; "h"; "d"; "c"]%char.

(** The comparison of the subject with one opponent in a trial. *)
Definition versus (myBestHand : HandEvaluation) (finalCommunityCards : list Z)
    (opponentHoleCards : list Z) : Z :=
  compareHands myBestHand (evaluateHand (opponentHoleCards ++ finalCommunityCards)).

(** The deck left after removing the known cards. *)
Definition remainingDeckOf (myCards communityCards : list string) : list Z :=
  filter
    (fun card =>
       negb (includesCard (parseCards myCards ++ parseCards communityCards) card))
    (List.map Z.of_nat (seq 0 52)).

(** The unrounded percentages of the aggregation step. *)
Definition percentage (count simulations : Z) : spec_float :=
  Float.mul (Float.div (Float.of_Z count) (Float.of_Z simulations))
            (Float.of_Z 100).

(** ** Auxiliary notions for the proofs *)

(** The loop shared by [countRanks] and [countSuits], from any [Map]. *)
Definition countBy (key : Z -> Z) (cards : list Z) (m : JS.Map) : JS.Map :=
  fold_left
    (fun counts card =>
       JS.set counts (key card) (JS.or0 (JS.get counts (key card)) + 1))
    cards m.

Definition total (l : list Z) : Z := fold_right Z.add 0 l.

(** How often [k] occurs in [keys]. *)
Definition occurrences (keys : list Z) (k : Z) : Z :=
  Z.of_nat (count_occ Z.eq_dec keys k).

(** [m] counts the occurrences in [keys]. *)
Definition counts_of (keys : list Z) (m : JS.Map) : Prop :=
  NoDup (List.map fst m) /\
  (forall k, In k (List.map fst m) <-> In k keys) /\
  (forall k, In k keys -> JS.get m k = Some (occurrences keys k)).

(** ** The specification's tests, in its own words

    These definitions follow the text of the specification, not the source;
    the evaluator is compared with them below. *)

(** The wheel: the ranks A, 2, 3, 4, 5 are all present. *)
Definition hasWheel (ranks : list Z) : Prop :=
  In 12 ranks /\ In 0 ranks /\ In 1 ranks /\ In 2 ranks /\ In 3 ranks.

(** Five consecutive values, from [low] up, are all present. *)
Definition hasRun (ranks : list Z) (low : Z) : Prop :=
  In low ranks /\ In (low + 1) ranks /\ In (low + 2) ranks /\
  In (low + 3) ranks /\ In (low + 4) ranks.

(** The straight test: any five consecutive values, or the wheel. *)
Definition straightTest (ranks : list Z) : bool :=
  (JS.includes ranks 12 && JS.includes ranks 0 && JS.includes ranks 1 &&
   JS.includes ranks 2 && JS.includes ranks 3)
  || existsb
       (fun low => forallb (fun k => JS.includes ranks (low + k)) [0; 1; 2; 3; 4])
       ranks.

(** The multiplicity count per rank and per suit. *)
Definition multiplicity (cards : list Z) (r : Z) : Z :=
  occurrences (List.map getRank cards) r.

Definition suitCount (cards : list Z) (s : Z) : Z :=
  occurrences (List.map getSuit cards) s.

(** The flush test: some suit's count is at least 5. *)
Definition flushTest (cards : list Z) : bool :=
  existsb (fun s => 5 <=? suitCount cards s) (List.map getSuit cards).

(** The multiplicities of the distinct ranks, sorted descending. The sort is
    the merge sort of the standard library, on the order [>=]. *)
Module DescendingOrder <: TotalLeBool.
Definition t := Z.
Definition leb (x y : Z) : bool := y <=? x.
Theorem leb_total (x y : Z) : leb x y = true \/ leb y x = true.
Proof.
  unfold leb. destruct (Z.leb_spec y x); [now left|right]. apply Z.leb_le. lia.
Qed.
End DescendingOrder.

Module DescendingSort := Sort DescendingOrder.

Definition multiplicitiesDescending (cards : list Z) : list Z :=
  DescendingSort.sort
    (List.map (multiplicity cards) (nodup Z.eq_dec (List.map getRank cards))).

Fixpoint beginsWith (l pre : list Z) {struct pre} : bool :=
  match pre, l with
  | [], _ => true
  | p :: pre', x :: l' => (x =? p) && beginsWith l' pre'
  | _ :: _, [] => false
  end.

(** The category assignment, first match wins. The first line stands for
    both Straight Flush and its further distinction, Royal Flush. *)
Definition categoryByPrecedence (cards : list Z) : Z :=
  let ranks := List.map getRank cards in
  let flush := flushTest cards in
  let straight := straightTest ranks in
  let multiplicities := multiplicitiesDescending cards in
  if flush && straight then STRAIGHT_FLUSH
  else if existsb (fun r => multiplicity cards r =? 4) ranks
       then FOUR_OF_A_KIND
  else if beginsWith multiplicities [3; 2] then FULL_HOUSE
  else if flush then FLUSH
  else if straight then STRAIGHT
  else if beginsWith multiplicities [3] then THREE_OF_A_KIND
  else if beginsWith multiplicities [2; 2] then TWO_PAIR
  else if beginsWith multiplicities [2] then ONE_PAIR
  else HIGH_CARD.

Definition withoutRoyal (category : Z) : Z :=
  if category =? ROYAL_FLUSH then STRAIGHT_FLUSH else category.

(** All five cards from the ten to the ace of one suit are in the hand:
    the five straight-flush ranks are exactly 10, J, Q, K, A. *)
Definition royalStraightFlush (cards : list Z) : bool :=
  existsb
    (fun suit =>
       forallb (fun r => JS.includes cards (card r suit)) [8; 9; 10; 11; 12])
    [0; 1; 2; 3].

(** The array the evaluator names [sortedCounts]. *)
Definition sortedCounts (cards : list Z) : list Z :=
  JS.sort (fun a b => b - a) (JS.values (countRanks cards)).

(** * Properties *)

(** Case analysis on the tests of a chain of conditionals: [tac] closes the
    branch taken, the chain goes on in the other one. *)
Ltac split_ifs tac :=
  repeat match goal with
         | |- context [if ?c then _ else _] => destruct c; [tac|]
         end.

(** ** Arrays, sets and sorting *)

Lemma includes_iff (l : list Z) (x : Z) : JS.includes l x = true <-> In x l.
Proof.
  unfold JS.includes. rewrite existsb_exists. split.
  - intros [y [Hin Heq]]. apply Z.eqb_eq in Heq. now subst.
  - intros Hin. exists x. split; [assumption|apply Z.eqb_refl].
Qed.

Lemma fold_set_add_in (l acc : list Z) (x : Z) :
  In x (fold_left JS.set_add l acc) <-> In x acc \/ In x l.
Proof.
  revert acc. induction l as [|y l IH]; intros acc; simpl.
  - tauto.
  - rewrite IH. unfold JS.set_add.
    destruct (JS.includes acc y) eqn:Hy.
    + apply includes_iff in Hy. split; [tauto|].
      intros [H|[H|H]]; subst; auto.
    + rewrite in_app_iff. simpl. tauto.
Qed.

Lemma fold_set_add_nodup (l acc : list Z) :
  NoDup acc -> NoDup (fold_left JS.set_add l acc).
Proof.
  revert acc. induction l as [|y l IH]; intros acc Hacc; simpl; [assumption|].
  apply IH. unfold JS.set_add.
  destruct (JS.includes acc y) eqn:Hy; [assumption|].
  apply NoDup_app; [assumption|repeat constructor; auto|].
  intros x Hx [<-|[]]. apply includes_iff in Hx. congruence.
Qed.

Lemma from_set_in (l : list Z) (x : Z) : In x (JS.from_set l) <-> In x l.
Proof.
  unfold JS.from_set. rewrite fold_set_add_in. simpl. tauto.
Qed.

Lemma from_set_nodup (l : list Z) : NoDup (JS.from_set l).
Proof.
  apply fold_set_add_nodup. constructor.
Qed.

Section SortFacts.

Context {A : Type} (cmp : A -> A -> Z).

Lemma insert_perm (x : A) (l : list A) :
  Permutation (JS.insert cmp x l) (x :: l).
Proof.
  induction l as [|y l IH]; simpl; [reflexivity|].
  destruct (cmp x y <=? 0); [reflexivity|].
  rewrite IH. apply perm_swap.
Qed.

Lemma sort_perm (l : list A) : Permutation (JS.sort cmp l) l.
Proof.
  induction l as [|x l IH]; simpl; [constructor|].
  rewrite insert_perm. now constructor.
Qed.

Lemma sort_in (l : list A) (x : A) : In x (JS.sort cmp l) <-> In x l.
Proof.
  split; apply Permutation_in; [|symmetry]; apply sort_perm.
Qed.

Lemma sort_length (l : list A) : length (JS.sort cmp l) = length l.
Proof.
  apply Permutation_length, sort_perm.
Qed.

Variable R : A -> A -> Prop.
Hypothesis R_trans : forall x y z, R x y -> R y z -> R x z.
Hypothesis cmp_le : forall x y, cmp x y <= 0 -> R x y.
Hypothesis cmp_gt : forall x y, 0 < cmp x y -> R y x.

Lemma insert_sorted (x : A) (l : list A) :
  StronglySorted R l -> StronglySorted R (JS.insert cmp x l).
Proof.
  induction l as [|y l IH]; intros Hs; simpl.
  - repeat constructor.
  - apply StronglySorted_inv in Hs. destruct Hs as [Hl Hy].
    destruct (Z.leb_spec (cmp x y) 0) as [Hle|Hgt].
    + constructor; [now constructor|].
      constructor; [now apply cmp_le|].
      rewrite Forall_forall in *. intros z Hz.
      apply R_trans with y; [now apply cmp_le|now apply Hy].
    + constructor; [now apply IH|].
      rewrite Forall_forall in *. intros z Hz.
      apply (Permutation_in _ (insert_perm x l)) in Hz.
      destruct Hz as [<-|Hz]; [now apply cmp_gt|now apply Hy].
Qed.

Lemma sort_sorted (l : list A) : StronglySorted R (JS.sort cmp l).
Proof.
  induction l as [|x l IH]; simpl; [constructor|now apply insert_sorted].
Qed.

End SortFacts.

Lemma sort_ascending (l : list Z) :
  StronglySorted Z.le (JS.sort (fun a b => a - b) l).
Proof.
  apply sort_sorted; intros; lia.
Qed.

Lemma sort_descending (l : list Z) :
  StronglySorted Z.ge (JS.sort (fun a b => b - a) l).
Proof.
  apply sort_sorted; intros; lia.
Qed.

(** A sorted array without repetition increases strictly. *)
Lemma sorted_nodup_increasing (l : list Z) :
  StronglySorted Z.le l -> NoDup l -> StronglySorted Z.lt l.
Proof.
  induction 1 as [|x l Hs IH Hx]; intros Hnd; [constructor|].
  inversion Hnd as [|? ? Hnotin Hnd']; subst.
  constructor; [now apply IH|].
  rewrite Forall_forall in *. intros y Hy.
  specialize (Hx y Hy). assert (x <> y) by (intros ->; contradiction). lia.
Qed.

(** In a strictly increasing array the positions and the values are
    ordered alike. *)
Lemma increasing_nth (l : list Z) :
  StronglySorted Z.lt l ->
  forall i j a b,
    nth_error l i = Some a -> nth_error l j = Some b ->
    (i < j)%nat -> a < b.
Proof.
  induction 1 as [|x l Hs IH Hx]; intros i j a b Hi Hj Hlt.
  - destruct i; discriminate.
  - destruct j as [|j]; [lia|]. simpl in Hj.
    destruct i as [|i]; simpl in Hi.
    + injection Hi as <-. rewrite Forall_forall in Hx.
      apply Hx. now apply nth_error_In with j.
    + apply (IH i j); auto. lia.
Qed.

Lemma increasing_nth_inv (l : list Z) :
  StronglySorted Z.lt l ->
  forall i j a b,
    nth_error l i = Some a -> nth_error l j = Some b ->
    a < b -> (i < j)%nat.
Proof.
  intros Hs i j a b Hi Hj Hab.
  destruct (Nat.lt_trichotomy i j) as [H|[H|H]]; [assumption| |].
  - subst. rewrite Hi in Hj. injection Hj as <-. lia.
  - pose proof (increasing_nth l Hs j i b a Hj Hi H). lia.
Qed.

(** ** Counting with a [Map] *)

Lemma get_set_same (m : JS.Map) (k v : Z) : JS.get (JS.set m k v) k = Some v.
Proof.
  induction m as [|[k' v'] m IH]; simpl.
  - now rewrite Z.eqb_refl.
  - destruct (Z.eqb_spec k k') as [->|Hne]; simpl.
    + now rewrite Z.eqb_refl.
    + destruct (Z.eqb_spec k k'); [contradiction|assumption].
Qed.

Lemma get_set_other (m : JS.Map) (k k' v : Z) :
  k' <> k -> JS.get (JS.set m k v) k' = JS.get m k'.
Proof.
  intros Hne. induction m as [|[k0 v0] m IH]; simpl.
  - destruct (Z.eqb_spec k' k); [contradiction|reflexivity].
  - destruct (Z.eqb_spec k k0) as [->|Hk]; simpl.
    + destruct (Z.eqb_spec k' k0); [contradiction|reflexivity].
    + now rewrite IH.
Qed.

Lemma get_none_iff (m : JS.Map) (k : Z) :
  JS.get m k = None <-> ~ In k (List.map fst m).
Proof.
  induction m as [|[k' v'] m IH]; simpl; [tauto|].
  destruct (Z.eqb_spec k k') as [->|Hne].
  - split; [discriminate|]. intros H. exfalso. apply H. now left.
  - rewrite IH. split.
    + intros H [Hk|Hin]; [now apply Hne|now apply H].
    + intros H Hin. apply H. now right.
Qed.

Lemma get_in (m : JS.Map) (k v : Z) :
  NoDup (List.map fst m) -> In (k, v) m -> JS.get m k = Some v.
Proof.
  induction m as [|[k' v'] m IH]; simpl; [tauto|].
  intros Hnd Hin. inversion Hnd as [|? ? Hnotin Hnd']; subst.
  destruct Hin as [[= -> ->]|Hin].
  - now rewrite Z.eqb_refl.
  - destruct (Z.eqb_spec k k') as [->|]; [|auto].
    exfalso. apply Hnotin. now apply (in_map fst) in Hin.
Qed.

Lemma keys_set (m : JS.Map) (k v : Z) :
  List.map fst (JS.set m k v) =
  if JS.includes (List.map fst m) k then List.map fst m
  else List.map fst m ++ [k].
Proof.
  unfold JS.includes.
  induction m as [|[k' v'] m IH]; simpl; [reflexivity|].
  destruct (Z.eqb_spec k k') as [->|Hne]; simpl; [reflexivity|].
  rewrite IH. now destruct (existsb (Z.eqb k) (List.map fst m)).
Qed.

Lemma total_values_set (m : JS.Map) (k : Z) :
  total (JS.values (JS.set m k (JS.or0 (JS.get m k) + 1)))
  = total (JS.values m) + 1.
Proof.
  unfold JS.values. induction m as [|[k' v'] m IH]; simpl; [reflexivity|].
  destruct (Z.eqb_spec k k') as [->|Hne]; simpl.
  - destruct (Z.eqb_spec v' 0); lia.
  - rewrite IH. lia.
Qed.

Lemma total_values_countBy (key : Z -> Z) (cards : list Z) (m : JS.Map) :
  total (JS.values (countBy key cards m))
  = total (JS.values m) + Z.of_nat (length cards).
Proof.
  revert m. induction cards as [|card cards IH]; intros m.
  - simpl. lia.
  - unfold countBy in *. cbn [fold_left length]. rewrite IH, total_values_set. lia.
Qed.

Lemma total_perm (l1 l2 : list Z) : Permutation l1 l2 -> total l1 = total l2.
Proof.
  induction 1; simpl; lia.
Qed.

Lemma occurrences_snoc (keys : list Z) (k0 k : Z) :
  occurrences (keys ++ [k0]) k
  = occurrences keys k + (if Z.eq_dec k0 k then 1 else 0).
Proof.
  unfold occurrences. rewrite count_occ_app. simpl.
  destruct (Z.eq_dec k0 k); lia.
Qed.

Lemma occurrences_pos (keys : list Z) (k : Z) :
  In k keys <-> 0 < occurrences keys k.
Proof.
  unfold occurrences. rewrite (count_occ_In Z.eq_dec). lia.
Qed.

Lemma counts_of_step (keys : list Z) (m : JS.Map) (k0 : Z) :
  counts_of keys m ->
  counts_of (keys ++ [k0]) (JS.set m k0 (JS.or0 (JS.get m k0) + 1)).
Proof.
  intros (Hnd & Hkeys & Hget).
  assert (JS.or0 (JS.get m k0) = occurrences keys k0) as Hor.
  { destruct (in_dec Z.eq_dec k0 keys) as [Hin|Hnotin].
    - rewrite (Hget k0 Hin). apply occurrences_pos in Hin. simpl.
      destruct (Z.eqb_spec (occurrences keys k0) 0); lia.
    - assert (JS.get m k0 = None) as ->
          by (apply get_none_iff; now rewrite Hkeys).
      unfold occurrences.
      apply (count_occ_not_In Z.eq_dec) in Hnotin. rewrite Hnotin.
      reflexivity. }
  assert (forall k, In k (List.map fst (JS.set m k0 (JS.or0 (JS.get m k0) + 1)))
                    <-> In k (keys ++ [k0])) as Hkeys'.
  { intros k. rewrite keys_set, in_app_iff. simpl.
    destruct (JS.includes (List.map fst m) k0) eqn:Hinc.
    - apply includes_iff in Hinc. rewrite Hkeys in *.
      split; [tauto|]. intros [H|[<-|[]]]; assumption.
    - rewrite in_app_iff, Hkeys. simpl. tauto. }
  split; [|split; [exact Hkeys'|]].
  - rewrite keys_set.
    destruct (JS.includes (List.map fst m) k0) eqn:Hinc; [assumption|].
    apply NoDup_app; [assumption|repeat constructor; auto|].
    intros x Hx [<-|[]]. apply includes_iff in Hx. congruence.
  - intros k Hk. rewrite occurrences_snoc.
    destruct (Z.eq_dec k0 k) as [<-|Hne].
    + rewrite get_set_same, Hor. reflexivity.
    + rewrite get_set_other by congruence.
      apply in_app_iff in Hk. destruct Hk as [Hin|[?|[]]]; [|contradiction].
      rewrite (Hget k Hin). f_equal. lia.
Qed.

Lemma counts_of_countBy (key : Z -> Z) (cards seen : list Z) (m : JS.Map) :
  counts_of seen m ->
  counts_of (seen ++ List.map key cards) (countBy key cards m).
Proof.
  revert seen m. induction cards as [|card cards IH]; intros seen m Hm.
  - simpl. now rewrite app_nil_r.
  - unfold countBy in *. cbn [fold_left List.map].
    replace (seen ++ key card :: List.map key cards)
      with ((seen ++ [key card]) ++ List.map key cards)
      by (now rewrite <- app_assoc).
    apply IH. now apply counts_of_step.
Qed.

Lemma counts_of_empty : counts_of [] [].
Proof.
  repeat split; simpl; try tauto. constructor.
Qed.

Lemma countRanks_counts (cards : list Z) :
  counts_of (List.map getRank cards) (countRanks cards).
Proof.
  apply (counts_of_countBy getRank cards [] []), counts_of_empty.
Qed.

Lemma countSuits_counts (cards : list Z) :
  counts_of (List.map getSuit cards) (countSuits cards).
Proof.
  apply (counts_of_countBy getSuit cards [] []), counts_of_empty.
Qed.

Lemma counts_of_values (keys : list Z) (m : JS.Map) :
  counts_of keys m ->
  JS.values m = List.map (occurrences keys) (List.map fst m).
Proof.
  intros (Hnd & Hkeys & Hget). unfold JS.values. rewrite map_map.
  apply map_ext_in. intros [k v] Hin. simpl.
  pose proof (get_in m k v Hnd Hin) as Hkv.
  assert (In k keys) as Hk by (apply Hkeys; now apply (in_map fst) in Hin).
  rewrite (Hget k Hk) in Hkv. congruence.
Qed.

Lemma counts_of_keys_perm (keys : list Z) (m : JS.Map) :
  counts_of keys m -> Permutation (List.map fst m) (nodup Z.eq_dec keys).
Proof.
  intros (Hnd & Hkeys & _).
  apply NoDup_Permutation; [assumption|apply NoDup_nodup|].
  intros k. now rewrite Hkeys, nodup_In.
Qed.

Lemma counts_of_values_in (keys : list Z) (m : JS.Map) (v : Z) :
  counts_of keys m ->
  In v (JS.values m) <-> exists k, In k keys /\ occurrences keys k = v.
Proof.
  intros Hm. rewrite (counts_of_values keys m Hm), in_map_iff.
  destruct Hm as (_ & Hkeys & _).
  split; intros (k & H1 & H2); exists k; rewrite Hkeys in *; tauto.
Qed.

Lemma total_values_countRanks (cards : list Z) :
  total (JS.values (countRanks cards)) = Z.of_nat (length cards).
Proof.
  apply (total_values_countBy getRank cards []).
Qed.


(** ** The straight test *)

Lemma isConsecutive_iff (u : list Z) (i : nat) :
  isConsecutive u i = true <->
  exists b,
    nth_error u i = Some b /\
    nth_error u (i + 1) = Some (b + 1) /\
    nth_error u (i + 2) = Some (b + 2) /\
    nth_error u (i + 3) = Some (b + 3) /\
    nth_error u (i + 4) = Some (b + 4).
Proof.
  unfold isConsecutive. cbn [forallb]. rewrite !andb_true_iff.
  change (Z.of_nat 1) with 1. change (Z.of_nat 2) with 2.
  change (Z.of_nat 3) with 3. change (Z.of_nat 4) with 4.
  split.
  - intros (H1 & H2 & H3 & H4 & _).
    destruct (nth_error u i) as [b|];
      [|destruct (nth_error u (i + 1)); discriminate].
    exists b. split; [reflexivity|].
    destruct (nth_error u (i + 1)); [|discriminate].
    destruct (nth_error u (i + 2)); [|discriminate].
    destruct (nth_error u (i + 3)); [|discriminate].
    destruct (nth_error u (i + 4)); [|discriminate].
    apply Z.eqb_eq in H1, H2, H3, H4. now subst.
  - intros (b & -> & -> & -> & -> & ->).
    rewrite !Z.eqb_refl. auto.
Qed.

Lemma increasing_adjacent (u : list Z) (i j : nat) (a : Z) :
  StronglySorted Z.lt u ->
  nth_error u i = Some a -> nth_error u j = Some (a + 1) -> j = S i.
Proof.
  intros Hs Hi Hj.
  assert (i < j)%nat as Hij
    by (apply (increasing_nth_inv u Hs i j a (a + 1)); auto; lia).
  destruct (Nat.eq_dec j (S i)) as [|Hne]; [assumption|exfalso].
  assert (S i < length u)%nat as Hlen.
  { assert (j < length u)%nat by (apply nth_error_Some; congruence). lia. }
  apply nth_error_Some in Hlen.
  destruct (nth_error u (S i)) as [v|] eqn:Hv; [|congruence].
  pose proof (increasing_nth u Hs i (S i) a v Hi Hv ltac:(lia)).
  pose proof (increasing_nth u Hs (S i) j v (a + 1) Hv Hj ltac:(lia)).
  lia.
Qed.

(** The loop of [isStraight] finds a window exactly when five consecutive
    values are present. *)
Lemma window_iff_run (u : list Z) :
  StronglySorted Z.lt u ->
  existsb (isConsecutive u) (seq 0 (length u - 4)) = true <->
  exists low, hasRun u low.
Proof.
  intros Hs. rewrite existsb_exists. split.
  - intros (i & _ & Hi). apply isConsecutive_iff in Hi.
    destruct Hi as (b & H0 & H1 & H2 & H3 & H4).
    exists b. unfold hasRun.
    repeat split; eapply nth_error_In; eassumption.
  - intros (low & H0 & H1 & H2 & H3 & H4).
    apply In_nth_error in H0, H1, H2, H3, H4.
    destruct H0 as [i0 H0], H1 as [i1 H1], H2 as [i2 H2],
             H3 as [i3 H3], H4 as [i4 H4].
    pose proof (increasing_adjacent u i0 i1 low Hs H0 H1) as E1.
    replace (low + 2) with (low + 1 + 1) in H2 by lia.
    pose proof (increasing_adjacent u i1 i2 (low + 1) Hs H1 H2) as E2.
    replace (low + 3) with (low + 1 + 1 + 1) in H3 by lia.
    pose proof (increasing_adjacent u i2 i3 (low + 1 + 1) Hs H2 H3) as E3.
    replace (low + 4) with (low + 1 + 1 + 1 + 1) in H4 by lia.
    pose proof (increasing_adjacent u i3 i4 (low + 1 + 1 + 1) Hs H3 H4) as E4.
    subst i1 i2 i3 i4.
    exists i0. split.
    + apply in_seq.
      assert (S (S (S (S i0))) < length u)%nat
        by (apply nth_error_Some; congruence).
      lia.
    + apply isConsecutive_iff. exists low.
      replace (i0 + 1)%nat with (S i0) by lia.
      replace (i0 + 2)%nat with (S (S i0)) by lia.
      replace (i0 + 3)%nat with (S (S (S i0))) by lia.
      replace (i0 + 4)%nat with (S (S (S (S i0)))) by lia.
      rewrite H0, H1, H2, H3, H4. repeat split; f_equal; lia.
Qed.

Lemma uniqueRanks_in (ranks : list Z) (x : Z) :
  In x (JS.sort (fun a b => a - b) (JS.from_set ranks)) <-> In x ranks.
Proof.
  rewrite sort_in. apply from_set_in.
Qed.

Lemma uniqueRanks_increasing (ranks : list Z) :
  StronglySorted Z.lt (JS.sort (fun a b => a - b) (JS.from_set ranks)).
Proof.
  apply sorted_nodup_increasing; [apply sort_ascending|].
  apply (Permutation_NoDup (l := JS.from_set ranks)).
  - symmetry. apply sort_perm.
  - apply from_set_nodup.
Qed.

Lemma hasRun_ext (l1 l2 : list Z) (low : Z) :
  (forall x, In x l1 <-> In x l2) -> hasRun l1 low <-> hasRun l2 low.
Proof.
  intros H. unfold hasRun. now rewrite !H.
Qed.

(** [isStraight] accepts exactly the wheel and the runs of five consecutive
    values. *)
Lemma isStraight_iff (ranks : list Z) :
  isStraight ranks = true <-> hasWheel ranks \/ exists low, hasRun ranks low.
Proof.
  unfold isStraight.
  set (u := JS.sort (fun a b => a - b) (JS.from_set ranks)).
  assert (forall x, In x u <-> In x ranks) as Hin
    by (intros x; apply uniqueRanks_in).
  assert (hasWheel ranks <->
          JS.includes u 12 && JS.includes u 0 && JS.includes u 1 &&
          JS.includes u 2 && JS.includes u 3 = true) as Hw.
  { unfold hasWheel. rewrite !andb_true_iff, !includes_iff, !Hin. tauto. }
  assert ((exists low, hasRun ranks low) <-> exists low, hasRun u low) as Hr.
  { split; intros [low H]; exists low; revert H; apply hasRun_ext;
      intros x; rewrite Hin; tauto. }
  rewrite Hw, Hr, <- (window_iff_run u (uniqueRanks_increasing ranks)).
  destruct (JS.includes u 12 && JS.includes u 0 && JS.includes u 1 &&
            JS.includes u 2 && JS.includes u 3); intuition congruence.
Qed.

Lemma straightTest_iff (ranks : list Z) :
  straightTest ranks = true <-> hasWheel ranks \/ exists low, hasRun ranks low.
Proof.
  unfold straightTest, hasWheel, hasRun.
  rewrite orb_true_iff, !andb_true_iff, !includes_iff, existsb_exists.
  split; (intros [H|H]; [left; tauto|right]).
  - destruct H as (low & _ & H). exists low. cbn [forallb] in H.
    rewrite !andb_true_iff, !includes_iff, Z.add_0_r in H. tauto.
  - destruct H as (low & H). exists low. split; [tauto|]. cbn [forallb].
    rewrite !andb_true_iff, !includes_iff, Z.add_0_r. tauto.
Qed.

Lemma isStraight_straightTest (ranks : list Z) :
  isStraight ranks = straightTest ranks.
Proof.
  apply eq_true_iff_eq. rewrite isStraight_iff, straightTest_iff. tauto.
Qed.

(** ** The flush test and the sorted multiplicities *)

Lemma isFlush_flushTest (cards : list Z) : isFlush cards = flushTest cards.
Proof.
  apply eq_true_iff_eq. unfold isFlush, flushTest.
  rewrite !existsb_exists. split.
  - intros (v & Hin & Hv).
    apply (counts_of_values_in _ _ v (countSuits_counts cards)) in Hin.
    destruct Hin as (s & Hs & <-). now exists s.
  - intros (s & Hs & Hv). exists (suitCount cards s). split; [|assumption].
    apply (counts_of_values_in _ _ _ (countSuits_counts cards)). now exists s.
Qed.

Lemma descending_unique (l1 l2 : list Z) :
  StronglySorted Z.ge l1 -> StronglySorted Z.ge l2 ->
  Permutation l1 l2 -> l1 = l2.
Proof.
  revert l2. induction l1 as [|a l1 IH]; intros l2 H1 H2 Hp.
  - now apply Permutation_nil in Hp.
  - destruct l2 as [|b l2].
    + symmetry in Hp. now apply Permutation_nil in Hp.
    + apply StronglySorted_inv in H1, H2.
      destruct H1 as [H1 Ha], H2 as [H2 Hb].
      rewrite Forall_forall in Ha, Hb.
      assert (a = b) as ->.
      { assert (In a (b :: l2)) as Hina
            by (apply (Permutation_in _ Hp); now left).
        assert (In b (a :: l1)) as Hinb
            by (apply (Permutation_in _ (Permutation_sym Hp)); now left).
        destruct Hina as [->|Hina]; [reflexivity|].
        destruct Hinb as [->|Hinb]; [reflexivity|].
        specialize (Ha b Hinb). specialize (Hb a Hina). lia. }
      f_equal. apply IH; auto. now apply Permutation_cons_inv in Hp.
Qed.

Lemma multiplicitiesDescending_sorted (cards : list Z) :
  StronglySorted Z.ge (multiplicitiesDescending cards).
Proof.
  unfold multiplicitiesDescending.
  set (l := List.map _ _).
  assert (StronglySorted (fun x y => is_true (DescendingOrder.leb x y))
                         (DescendingSort.sort l)) as H.
  { apply DescendingSort.StronglySorted_sort.
    intros x y z. unfold DescendingOrder.leb, is_true.
    rewrite !Z.leb_le. lia. }
  induction H as [|x l' Hs IH Hx]; constructor; [assumption|].
  rewrite Forall_forall in *. intros y Hy. specialize (Hx y Hy).
  unfold DescendingOrder.leb, is_true in Hx. apply Z.leb_le in Hx. lia.
Qed.

Lemma sortedCounts_perm (cards : list Z) :
  Permutation (sortedCounts cards)
    (List.map (multiplicity cards) (nodup Z.eq_dec (List.map getRank cards))).
Proof.
  unfold sortedCounts. rewrite sort_perm.
  rewrite (counts_of_values _ _ (countRanks_counts cards)).
  apply Permutation_map, counts_of_keys_perm, countRanks_counts.
Qed.

(** The evaluator's [sortedCounts] are the multiplicities of the distinct
    ranks, sorted descending. *)
Lemma sortedCounts_multiplicities (cards : list Z) :
  sortedCounts cards = multiplicitiesDescending cards.
Proof.
  apply descending_unique.
  - apply sort_descending.
  - apply multiplicitiesDescending_sorted.
  - rewrite sortedCounts_perm. apply DescendingSort.Permuted_sort.
Qed.

Lemma sortedCounts_total (cards : list Z) :
  total (sortedCounts cards) = Z.of_nat (length cards).
Proof.
  unfold sortedCounts.
  rewrite (total_perm _ _ (sort_perm _ _)). apply total_values_countRanks.
Qed.

Lemma sortedCounts_in (cards : list Z) (v : Z) :
  In v (sortedCounts cards) <->
  exists r, In r (List.map getRank cards) /\ multiplicity cards r = v.
Proof.
  unfold sortedCounts. rewrite sort_in.
  apply counts_of_values_in, countRanks_counts.
Qed.

Lemma sortedCounts_positive (cards : list Z) :
  Forall (fun v => 1 <= v) (sortedCounts cards).
Proof.
  apply Forall_forall. intros v Hv. apply sortedCounts_in in Hv.
  destruct Hv as (r & Hr & <-). apply occurrences_pos in Hr.
  unfold multiplicity. lia.
Qed.

Lemma total_nonneg (l : list Z) : Forall (fun v => 1 <= v) l -> 0 <= total l.
Proof.
  induction 1; simpl; lia.
Qed.

Lemma total_in (l : list Z) (x : Z) :
  Forall (fun v => 1 <= v) l -> In x l -> x <= total l.
Proof.
  induction 1 as [|y l Hy Hl IH]; simpl; [tauto|].
  pose proof (total_nonneg l Hl).
  intros [->|Hin]; [lia|]. specialize (IH Hin). lia.
Qed.

Lemma at_is_beginsWith1 (l : list Z) (a : Z) :
  JS.at_is l 0 a = beginsWith l [a].
Proof.
  unfold JS.at_is. destruct l; simpl; [reflexivity|]. now rewrite andb_true_r.
Qed.

Lemma at_is_beginsWith2 (l : list Z) (a b : Z) :
  JS.at_is l 0 a && JS.at_is l 1 b = beginsWith l [a; b].
Proof.
  unfold JS.at_is.
  destruct l as [|x [|y l]]; simpl; rewrite ?andb_true_r; reflexivity.
Qed.

(** Among seven cards, the top multiplicity is 4 exactly when some rank has
    multiplicity 4. *)
Lemma four_of_a_kind_iff (cards : list Z) :
  length cards = 7%nat ->
  JS.at_is (sortedCounts cards) 0 4
  = existsb (fun r => multiplicity cards r =? 4) (List.map getRank cards).
Proof.
  intros Hlen. apply eq_true_iff_eq. rewrite existsb_exists.
  pose proof (sortedCounts_total cards) as Htotal.
  pose proof (sortedCounts_positive cards) as Hpos.
  pose proof (sortedCounts_in cards 4) as Hin.
  pose proof (sort_descending (JS.values (countRanks cards))) as Hsorted.
  fold (sortedCounts cards) in Hsorted.
  rewrite Hlen in Htotal. unfold JS.at_is.
  destruct (sortedCounts cards) as [|x l]; simpl in *.
  - split; [discriminate|]. intros (r & Hr & Heq). apply Z.eqb_eq in Heq.
    exfalso. apply Hin. now exists r.
  - rewrite Z.eqb_eq. split.
    + intros ->. destruct (proj1 Hin (or_introl eq_refl)) as (r & Hr & Hm).
      exists r. split; [assumption|now apply Z.eqb_eq].
    + intros (r & Hr & Heq). apply Z.eqb_eq in Heq.
      destruct (proj2 Hin (ex_intro _ r (conj Hr Heq))) as [->|Hl];
        [reflexivity|].
      inversion Hpos as [|? ? Hx Hl']; subst.
      apply StronglySorted_inv in Hsorted. destruct Hsorted as [_ Hge].
      rewrite Forall_forall in Hge. specialize (Hge 4 Hl).
      pose proof (total_in l 4 Hl' Hl). lia.
Qed.

(** ** Claims on the evaluator *)

Lemma evaluateHand_straight_flush (cards : list Z) :
  isFlush cards = true ->
  isStraight (List.map getRank cards) = true ->
  rank (evaluateHand cards) =
  if forallb (JS.includes (List.map getRank cards)) [8; 9; 10; 11; 12]
  then ROYAL_FLUSH else STRAIGHT_FLUSH.
Proof.
  intros Hflush Hstraight. unfold evaluateHand. cbn [rank forallb].
  rewrite Hflush, Hstraight. cbn [andb]. now rewrite andb_true_r, !andb_assoc.
Qed.

(** What the test of the evaluator for the Royal Flush decides: it looks
    for the ranks 10, J, Q, K and A among all the cards of the hand, in
    whatever suits, and not among the cards of the straight flush. *)
Lemma royal_test_reads_all_ranks (cards : list Z) :
  flushTest cards = true ->
  straightTest (List.map getRank cards) = true ->
  (rank (evaluateHand cards) = ROYAL_FLUSH <->
   forall r, In r [8; 9; 10; 11; 12] -> In r (List.map getRank cards)) /\
  (rank (evaluateHand cards) <> ROYAL_FLUSH ->
   rank (evaluateHand cards) = STRAIGHT_FLUSH).
Proof.
  rewrite <- isFlush_flushTest, <- isStraight_straightTest.
  intros Hflush Hstraight.
  rewrite (evaluateHand_straight_flush cards Hflush Hstraight).
  destruct (forallb _ _) eqn:Hall.
  - split; [|congruence]. split; [|reflexivity]. intros _ r Hr.
    rewrite forallb_forall in Hall. now apply includes_iff, Hall.
  - split; [|reflexivity]. split; [discriminate|]. intros H. exfalso.
    assert (forallb (JS.includes (List.map getRank cards)) [8; 9; 10; 11; 12]
            = true) as Habs; [|congruence].
    apply forallb_forall. intros r Hr. now apply includes_iff, H.
Qed.

Lemma royal_test_reads_all_ranks_example :
  (rank (evaluateHand kingHighStraightFlush) = ROYAL_FLUSH <->
   forall r, In r [8; 9; 10; 11; 12] ->
             In r (List.map getRank kingHighStraightFlush)) /\
  (rank (evaluateHand kingHighStraightFlush) <> ROYAL_FLUSH ->
   rank (evaluateHand kingHighStraightFlush) = STRAIGHT_FLUSH).
Proof.
  apply (royal_test_reads_all_ranks kingHighStraightFlush); reflexivity.
Defined.

(** C1. The test for the Royal Flush misses the cards of the straight
    flush. In 9s Ts Js Qs Ks Ah 2d the five cards of the straight flush run
    from the nine to the king, no suit holds the ten to the ace, and the
    hand is classified Royal Flush, where the claim classifies it Straight
    Flush. On the board 9s Ts Js Qs Ks the hole cards Ah 3d are classified
    Royal Flush in the same way, and they beat As 2c, the one hand that
    holds the straight flush up to the ace, on the last rank of the key. *)
Theorem C1_royal_flush_test_misses :
  (length kingHighStraightFlush = 7%nat /\
   flushTest kingHighStraightFlush = true /\
   straightTest (List.map getRank kingHighStraightFlush) = true /\
   forallb (fun r => JS.includes kingHighStraightFlush (card r 0))
           [7; 8; 9; 10; 11] = true /\
   royalStraightFlush kingHighStraightFlush = false /\
   rank (evaluateHand kingHighStraightFlush) = ROYAL_FLUSH) /\
  (royalStraightFlush aceOffSuitHand = false /\
   royalStraightFlush aceHighStraightFlush = true /\
   forallb (fun r => JS.includes aceHighStraightFlush (card r 0))
           [7; 8; 9; 10; 11; 12] = true /\
   evaluateHand aceOffSuitHand
   = {| rank := ROYAL_FLUSH; keyRanks := [12; 11; 10; 9; 8; 7; 1] |} /\
   evaluateHand aceHighStraightFlush
   = {| rank := ROYAL_FLUSH; keyRanks := [12; 11; 10; 9; 8; 7; 0] |} /\
   compareHands (evaluateHand aceOffSuitHand)
                (evaluateHand aceHighStraightFlush) = 1).
Proof.
  split; repeat split.
Qed.

(** C3. For seven cards the category is assigned by first match in the
    order Straight Flush (flush and straight; Royal Flush is its further
    distinction), Four of a Kind (a rank of multiplicity 4), Full House
    (the multiplicities sorted descending begin with 3, 2), Flush, Straight,
    Three of a Kind (top multiplicity 3), Two Pair (they begin with 2, 2),
    One Pair (top multiplicity 2), High Card. *)
Theorem C3_category_by_precedence (cards : list Z) :
  length cards = 7%nat ->
  withoutRoyal (rank (evaluateHand cards)) = categoryByPrecedence cards.
Proof.
  intros Hlen. unfold evaluateHand, categoryByPrecedence. cbn [rank].
  fold (sortedCounts cards).
  rewrite <- isFlush_flushTest, <- isStraight_straightTest.
  rewrite (four_of_a_kind_iff cards Hlen), !at_is_beginsWith2,
    !at_is_beginsWith1, <- sortedCounts_multiplicities.
  destruct (isFlush cards && isStraight (List.map getRank cards)).
  - match goal with |- context [if ?c then ROYAL_FLUSH else _] =>
      destruct c end; reflexivity.
  - split_ifs ltac:(reflexivity). reflexivity.
Qed.

Lemma C3_category_by_precedence_witness :
  withoutRoyal (rank (evaluateHand wheelHand)) = categoryByPrecedence wheelHand.
Proof.
  apply (C3_category_by_precedence wheelHand). reflexivity.
Defined.

Lemma five_ranks_counts (cards : list Z) (five : list Z) :
  length cards = 7%nat ->
  NoDup five -> length five = 5%nat ->
  incl five (List.map getRank cards) ->
  JS.at_is (sortedCounts cards) 0 4 = false /\
  JS.at_is (sortedCounts cards) 0 3 && JS.at_is (sortedCounts cards) 1 2 = false.
Proof.
  intros Hlen Hnd Hfive Hincl.
  assert (5 <= length (sortedCounts cards))%nat as Hl.
  { rewrite (Permutation_length (sortedCounts_perm cards)), length_map.
    rewrite <- Hfive. apply NoDup_incl_length; [assumption|].
    intros r Hr. apply nodup_In. now apply Hincl. }
  pose proof (sortedCounts_total cards) as Htotal. rewrite Hlen in Htotal.
  pose proof (sortedCounts_positive cards) as Hpos.
  unfold JS.at_is.
  destruct (sortedCounts cards) as [|a [|b [|c [|d [|e rest]]]]];
    simpl in Hl; try lia.
  repeat match goal with H : Forall _ (_ :: _) |- _ =>
    apply Forall_cons_iff in H; destruct H end.
  match goal with H : Forall _ rest |- _ =>
    pose proof (total_nonneg rest H) end.
  simpl in *.
  destruct (Z.eqb_spec a 4); [lia|].
  destruct (Z.eqb_spec a 3); destruct (Z.eqb_spec b 2); auto; lia.
Qed.

Lemma no_straight_category (cards : list Z) :
  isStraight (List.map getRank cards) = false ->
  rank (evaluateHand cards) <> STRAIGHT /\
  rank (evaluateHand cards) <> STRAIGHT_FLUSH /\
  rank (evaluateHand cards) <> ROYAL_FLUSH.
Proof.
  intros Hno. unfold evaluateHand. cbn [rank]. rewrite Hno, andb_false_r.
  split_ifs ltac:(repeat split; discriminate).
  repeat split; discriminate.
Qed.

(** C4. The straight test accepts the wheel and otherwise only five
    consecutive values, so no other wrap-around passes. A seven-card hand
    that holds K, A, 2, 3, 4 but neither five consecutive ranks nor the
    wheel is not classified Straight, Straight Flush or Royal Flush; it is
    classified below Straight unless five of its cards share a suit, and
    Flush then. Ks As 2h 3d 4c 9h 9d is One Pair, As 2s 3h 4d 5c 9h 9d is
    at least Straight. *)
Theorem C4_wheel_is_the_only_wrap (cards : list Z) :
  let ranks := List.map getRank cards in
  (hasWheel ranks -> isStraight ranks = true) /\
  (isStraight ranks = true -> hasWheel ranks \/ exists low, hasRun ranks low) /\
  (length cards = 7%nat ->
   In 11 ranks -> In 12 ranks -> In 0 ranks -> In 1 ranks -> In 2 ranks ->
   ~ hasWheel ranks -> (forall low, ~ hasRun ranks low) ->
   isStraight ranks = false /\
   rank (evaluateHand cards) <> STRAIGHT /\
   rank (evaluateHand cards) <> STRAIGHT_FLUSH /\
   rank (evaluateHand cards) <> ROYAL_FLUSH /\
   (flushTest cards = false -> rank (evaluateHand cards) < STRAIGHT) /\
   (flushTest cards = true -> rank (evaluateHand cards) = FLUSH)) /\
  rank (evaluateHand wrapHand) = ONE_PAIR /\
  STRAIGHT <= rank (evaluateHand wheelHand).
Proof.
  intros ranks. split; [|split; [|split]].
  - intros H. apply isStraight_iff. now left.
  - apply isStraight_iff.
  - intros Hlen HK HA H2 H3 H4 Hwheel Hrun.
    assert (isStraight ranks = false) as Hno.
    { destruct (isStraight ranks) eqn:E; [|reflexivity].
      apply isStraight_iff in E. destruct E as [E|[low E]];
        [contradiction|now elim (Hrun low)]. }
    destruct (no_straight_category cards Hno) as (N1 & N2 & N3).
    repeat (split; [assumption|]).
    destruct (five_ranks_counts cards [11; 12; 0; 1; 2] Hlen) as [Hq Hf].
    { repeat constructor; simpl; intuition lia. }
    { reflexivity. }
    { intros r [<-|[<-|[<-|[<-|[<-|[]]]]]]; assumption. }
    rewrite <- isFlush_flushTest.
    unfold evaluateHand. cbn [rank]. fold ranks. fold (sortedCounts cards).
    rewrite Hno, andb_false_r, Hq, Hf.
    split; intros ->.
    + unfold STRAIGHT, THREE_OF_A_KIND, TWO_PAIR, ONE_PAIR, HIGH_CARD.
      split_ifs ltac:(lia). lia.
    + reflexivity.
  - split; vm_compute; [reflexivity|discriminate].
Qed.

Lemma C4_wheel_is_the_only_wrap_witness :
  isStraight (List.map getRank wheelHand) = true /\
  (isStraight (List.map getRank wrapHand) = false /\
   rank (evaluateHand wrapHand) <> STRAIGHT /\
   rank (evaluateHand wrapHand) <> STRAIGHT_FLUSH /\
   rank (evaluateHand wrapHand) <> ROYAL_FLUSH /\
   (flushTest wrapHand = false -> rank (evaluateHand wrapHand) < STRAIGHT) /\
   (flushTest wrapHand = true -> rank (evaluateHand wrapHand) = FLUSH)).
Proof.
  pose proof (C4_wheel_is_the_only_wrap wheelHand) as Hwheel.
  pose proof (C4_wheel_is_the_only_wrap wrapHand) as Hwrap.
  cbv zeta in Hwheel, Hwrap.
  destruct Hwheel as (Hwheel & _). destruct Hwrap as (_ & _ & Hwrap & _).
  split.
  - apply Hwheel. vm_compute.
    repeat split; repeat (first [left; reflexivity | right]).
  - apply Hwrap;
      try (vm_compute; repeat (first [left; reflexivity | right]); fail).
    + reflexivity.
    + change (List.map getRank wrapHand) with [11; 12; 0; 1; 2; 7; 7].
      unfold hasWheel. simpl. lia.
    + intros low.
      change (List.map getRank wrapHand) with [11; 12; 0; 1; 2; 7; 7].
      unfold hasRun. simpl. lia.
Defined.

(** C4, the claim as stated fails: Ks As 2s 3s 4s 9h 9d holds K, A, 2, 3, 4
    and no five consecutive ranks, and it is classified Flush, which is not
    below Straight. *)
Lemma C4_wrap_with_flush_is_not_below_straight :
  length wrapFlushHand = 7%nat /\
  List.map getRank wrapFlushHand = [11; 12; 0; 1; 2; 7; 7] /\
  isStraight (List.map getRank wrapFlushHand) = false /\
  rank (evaluateHand wrapFlushHand) = FLUSH /\
  ~ rank (evaluateHand wrapFlushHand) < STRAIGHT.
Proof.
  repeat split. vm_compute. discriminate.
Qed.

Lemma keyRanks_perm (cards : list Z) :
  Permutation (keyRanks (evaluateHand cards))
              (nodup Z.eq_dec (List.map getRank cards)).
Proof.
  unfold evaluateHand. cbn [keyRanks]. unfold JS.entries.
  rewrite (Permutation_map fst (sort_perm _ (countRanks cards))).
  apply counts_of_keys_perm, countRanks_counts.
Qed.

Lemma evaluateHand_category_range (cards : list Z) :
  HIGH_CARD <= rank (evaluateHand cards) <= ROYAL_FLUSH.
Proof.
  unfold evaluateHand. cbn [rank].
  unfold HIGH_CARD, ONE_PAIR, TWO_PAIR, THREE_OF_A_KIND, STRAIGHT, FLUSH,
    FULL_HOUSE, FOUR_OF_A_KIND, STRAIGHT_FLUSH, ROYAL_FLUSH.
  repeat match goal with
         | |- context [if ?c then _ else _] => destruct c
         end; lia.
Qed.

(** C8. The evaluator does not look at the number of cards. For a list of
    any length, seven or not, it returns an evaluation: a category of the
    enumeration and, as key, the distinct ranks of the list. *)
Theorem C8_evaluateHand_accepts_any_size (cards : list Z) :
  length cards <> 7%nat ->
  HIGH_CARD <= rank (evaluateHand cards) <= ROYAL_FLUSH /\
  NoDup (keyRanks (evaluateHand cards)) /\
  (forall r, In r (keyRanks (evaluateHand cards)) <->
             In r (List.map getRank cards)).
Proof.
  intros _. split; [apply evaluateHand_category_range|]. split.
  - apply (Permutation_NoDup (Permutation_sym (keyRanks_perm cards))).
    apply NoDup_nodup.
  - intros r. split; intros H.
    + apply (Permutation_in _ (keyRanks_perm cards)) in H.
      now apply nodup_In in H.
    + apply (Permutation_in _ (Permutation_sym (keyRanks_perm cards))).
      now apply nodup_In.
Qed.

Lemma C8_evaluateHand_accepts_any_size_witness :
  HIGH_CARD <= rank (evaluateHand [card 12 0; card 12 1]) <= ROYAL_FLUSH /\
  NoDup (keyRanks (evaluateHand [card 12 0; card 12 1])) /\
  (forall r, In r (keyRanks (evaluateHand [card 12 0; card 12 1])) <->
             In r (List.map getRank [card 12 0; card 12 1])).
Proof.
  apply (C8_evaluateHand_accepts_any_size [card 12 0; card 12 1]).
  simpl. lia.
Defined.

(** C8, the claim as stated fails: no error is raised for the empty list,
    for two cards or for eight; each gets an evaluation. *)
Lemma C8_other_sizes_are_evaluated :
  evaluateHand [] = {| rank := HIGH_CARD; keyRanks := [] |} /\
  evaluateHand [card 12 0; card 12 1]
  = {| rank := ONE_PAIR; keyRanks := [12] |} /\
  evaluateHand (card 5 3 :: wheelHand)
  = {| rank := STRAIGHT; keyRanks := [7; 12; 5; 3; 2; 1; 0] |}.
Proof.
  repeat split.
Qed.

(** ** Comparison *)

Lemma compareHands_category_first (hand1 hand2 : HandEvaluation) :
  (rank hand1 > rank hand2 -> compareHands hand1 hand2 = 1) /\
  (rank hand1 < rank hand2 -> compareHands hand1 hand2 = -1) /\
  (rank hand1 = rank hand2 ->
   compareHands hand1 hand2 = compareKeys (keyRanks hand1) (keyRanks hand2)).
Proof.
  unfold compareHands.
  destruct (Z.gtb_spec (rank hand1) (rank hand2));
    destruct (Z.ltb_spec (rank hand1) (rank hand2)); repeat split; intros; lia || auto.
Qed.

(** The keys compare equal as soon as they agree on the positions that both
    of them have. *)
Lemma compareKeys_zero_iff (k1 k2 : list Z) :
  compareKeys k1 k2 = 0 <->
  forall i x y, nth_error k1 i = Some x -> nth_error k2 i = Some y -> x = y.
Proof.
  revert k2. induction k1 as [|x k1 IH]; intros k2; simpl.
  - split; [|reflexivity]. intros _ [|i] a b; discriminate.
  - destruct k2 as [|y k2].
    + rewrite IH. split; intros _ i a b _ H; destruct i; discriminate.
    + destruct (Z.gtb_spec x y) as [Hgt|Hle].
      * split; [discriminate|]. intros H.
        specialize (H 0%nat x y eq_refl eq_refl). lia.
      * destruct (Z.ltb_spec x y) as [Hlt|Hge].
        -- split; [discriminate|]. intros H.
           specialize (H 0%nat x y eq_refl eq_refl). lia.
        -- rewrite IH. split.
           ++ intros H [|i] a b; simpl.
              ** intros [= <-] [= <-]. lia.
              ** apply H.
           ++ intros H i a b. apply (H (S i)).
Qed.

Lemma compareKeys_range (k1 k2 : list Z) :
  compareKeys k1 k2 = 1 \/ compareKeys k1 k2 = -1 \/ compareKeys k1 k2 = 0.
Proof.
  revert k2. induction k1 as [|x k1 IH]; intros k2; simpl; auto.
  destruct k2 as [|y k2]; auto.
  destruct (x >? y); auto. destruct (x <? y); auto.
Qed.

(** The first position at which both keys hold different ranks decides. *)
Lemma compareKeys_first_difference (k1 k2 : list Z) (i : nat) (x y : Z) :
  firstn i k1 = firstn i k2 ->
  nth_error k1 i = Some x -> nth_error k2 i = Some y -> x <> y ->
  compareKeys k1 k2 = if x >? y then 1 else -1.
Proof.
  revert k2 i. induction k1 as [|a k1 IH]; intros k2 i Hpre H1 H2 Hne.
  - destruct i; discriminate.
  - destruct k2 as [|b k2]; [destruct i; discriminate|].
    destruct i as [|i]; simpl in *.
    + injection H1 as ->. injection H2 as ->.
      destruct (Z.gtb_spec x y); [reflexivity|].
      destruct (Z.ltb_spec x y); [reflexivity|lia].
    + injection Hpre as -> Hpre.
      destruct (Z.gtb_spec b b); [lia|].
      destruct (Z.ltb_spec b b); [lia|].
      now apply (IH k2 i).
Qed.

(** What the loop of [compareHands] decides: the categories first, with 1
    or -1 when they differ; on equal categories the keys position by
    position over the positions that both keys have, with the answer at
    the first one where the ranks differ, and 0 when no position common to
    both keys differs, whether or not one key is longer. *)
Lemma compareHands_common_positions (hand1 hand2 : HandEvaluation) :
  (rank hand1 > rank hand2 -> compareHands hand1 hand2 = 1) /\
  (rank hand1 < rank hand2 -> compareHands hand1 hand2 = -1) /\
  (rank hand1 = rank hand2 ->
   (forall i x y,
      firstn i (keyRanks hand1) = firstn i (keyRanks hand2) ->
      nth_error (keyRanks hand1) i = Some x ->
      nth_error (keyRanks hand2) i = Some y ->
      x <> y ->
      compareHands hand1 hand2 = if x >? y then 1 else -1) /\
   (compareHands hand1 hand2 = 0 <->
    forall i x y,
      nth_error (keyRanks hand1) i = Some x ->
      nth_error (keyRanks hand2) i = Some y -> x = y)).
Proof.
  destruct (compareHands_category_first hand1 hand2) as (Hgt & Hlt & Heq).
  split; [exact Hgt|]. split; [exact Hlt|].
  intros Hrank. rewrite (Heq Hrank). split.
  - intros i x y. apply compareKeys_first_difference.
  - apply compareKeys_zero_iff.
Qed.

Lemma compareHands_common_positions_example :
  (forall i x y,
     firstn i (keyRanks (evaluateHand threePairHand))
     = firstn i (keyRanks (evaluateHand twoPairHand)) ->
     nth_error (keyRanks (evaluateHand threePairHand)) i = Some x ->
     nth_error (keyRanks (evaluateHand twoPairHand)) i = Some y ->
     x <> y ->
     compareHands (evaluateHand threePairHand) (evaluateHand twoPairHand)
     = if x >? y then 1 else -1) /\
  (compareHands (evaluateHand threePairHand) (evaluateHand twoPairHand) = 0 <->
   forall i x y,
     nth_error (keyRanks (evaluateHand threePairHand)) i = Some x ->
     nth_error (keyRanks (evaluateHand twoPairHand)) i = Some y -> x = y).
Proof.
  apply (proj2 (proj2 (compareHands_common_positions
                         (evaluateHand threePairHand)
                         (evaluateHand twoPairHand)))).
  reflexivity.
Defined.

(** C5. The loop of [compareHands] runs over the positions of the first
    key only and stops comparing where either key ends, so it answers 0
    with a key that is not exhausted. On the board 5s 5h 5d 5c 9s the
    evaluations of 9h 9d and of 9c Ah are both Four of a Kind, with the
    keys 5 9 and 5 9 A, and [compareHands] answers 0 in both directions:
    the ace of the longer key, the kicker that decides between the two
    hands, is never compared. The same happens to Jd 3c and 3d 2c on the
    board Ks Kh Qs Qh Jc, both Two Pair, with the keys K Q J 3 and
    K Q J 3 2. *)
Theorem C5_longer_key_not_compared :
  (evaluateHand nineKickerHand
   = {| rank := FOUR_OF_A_KIND; keyRanks := [3; 7] |} /\
   evaluateHand aceKickerHand
   = {| rank := FOUR_OF_A_KIND; keyRanks := [3; 7; 12] |} /\
   compareHands (evaluateHand nineKickerHand) (evaluateHand aceKickerHand) = 0 /\
   compareHands (evaluateHand aceKickerHand) (evaluateHand nineKickerHand) = 0) /\
  (evaluateHand threePairHand
   = {| rank := TWO_PAIR; keyRanks := [11; 10; 9; 1] |} /\
   evaluateHand twoPairHand
   = {| rank := TWO_PAIR; keyRanks := [11; 10; 9; 1; 0] |} /\
   compareHands (evaluateHand threePairHand) (evaluateHand twoPairHand) = 0 /\
   compareHands (evaluateHand twoPairHand) (evaluateHand threePairHand) = 0).
Proof.
  split; repeat split; vm_compute; reflexivity.
Qed.

(** ** Card codec *)

Lemma prop_num_in (obj : list (ascii * Z)) (c : ascii) (v : Z) :
  JS.prop obj (Some c) = JS.Num v -> In (c, v) obj.
Proof.
  induction obj as [|[k w] rest IH]; simpl; [discriminate|].
  destruct (Ascii.eqb_spec c k) as [->|Hne].
  - intros [= ->]. now left.
  - intros H. right. now apply IH.
Qed.

Lemma prop_undefined_iff (obj : list (ascii * Z)) (c : ascii) :
  JS.prop obj (Some c) = JS.Undefined <-> ~ In c (List.map fst obj).
Proof.
  induction obj as [|[k w] rest IH]; simpl.
  - split; [intros _ []|reflexivity].
  - destruct (Ascii.eqb_spec c k) as [->|Hne].
    + split; [discriminate|]. intros H. exfalso. apply H. now left.
    + rewrite IH. split.
      * intros H [Hk|Hin]; [now apply Hne|now apply H].
      * intros H Hin. apply H. now right.
Qed.

Lemma prop_in_num (obj : list (ascii * Z)) (c : ascii) :
  In c (List.map fst obj) -> exists v, JS.prop obj (Some c) = JS.Num v.
Proof.
  induction obj as [|[k w] rest IH]; simpl; [intros []|].
  destruct (Ascii.eqb_spec c k) as [->|Hne].
  - intros _. now exists w.
  - intros [Hk|Hin]; [now elim Hne|now apply IH].
Qed.

Lemma RANK_MAP_range (c : ascii) (v : Z) : In (c, v) RANK_MAP -> 0 <= v <= 12.
Proof.
  unfold RANK_MAP. simpl.
  intros H; repeat (destruct H as [[= <- <-]|H]; [lia|]); destruct H.
Qed.

Lemma SUIT_MAP_range (c : ascii) (v : Z) : In (c, v) SUIT_MAP -> 0 <= v <= 3.
Proof.
  unfold SUIT_MAP. simpl.
  intros H; repeat (destruct H as [[= <- <-]|H]; [lia|]); destruct H.
Qed.

(** C7. [parseCard] never fails. On a two-character string it returns
    [suit * 13 + rank], an integer of [0, 52), when both characters are
    recognised, and [NaN] when the rank character or the suit character is
    not. *)
Theorem C7_parseCard_value_or_NaN (rankChar suitChar : ascii) :
  let cardStr := String rankChar (String suitChar EmptyString) in
  (In rankChar rankChars -> In suitChar suitChars ->
   exists rank suit,
     In (rankChar, rank) RANK_MAP /\ In (suitChar, suit) SUIT_MAP /\
     parseCard cardStr = JS.Num (suit * 13 + rank) /\
     0 <= suit * 13 + rank < 52) /\
  (~ In rankChar rankChars \/ ~ In suitChar suitChars ->
   parseCard cardStr = JS.NaN).
Proof.
  intros cardStr. unfold parseCard, cardStr. cbn [String.get].
  change rankChars with (List.map fst RANK_MAP).
  change suitChars with (List.map fst SUIT_MAP).
  split.
  - intros Hr Hs.
    destruct (prop_in_num _ _ Hr) as [rank Hrank].
    destruct (prop_in_num _ _ Hs) as [suit Hsuit].
    exists rank, suit. rewrite Hrank, Hsuit.
    pose proof (prop_num_in _ _ _ Hrank) as Hinr.
    pose proof (prop_num_in _ _ _ Hsuit) as Hins.
    pose proof (RANK_MAP_range _ _ Hinr).
    pose proof (SUIT_MAP_range _ _ Hins).
    repeat split; auto; lia.
  - intros [Hr|Hs].
    + apply prop_undefined_iff in Hr. rewrite Hr.
      now destruct (JS.prop SUIT_MAP (Some suitChar)).
    + apply prop_undefined_iff in Hs. now rewrite Hs.
Qed.

Lemma C7_parseCard_value_or_NaN_witness :
  (exists rank suit,
     In ("K"%char, rank) RANK_MAP /\ In ("d"%char, suit) SUIT_MAP /\
     parseCard "Kd" = JS.Num (suit * 13 + rank) /\
     0 <= suit * 13 + rank < 52) /\
  parseCard "Xs" = JS.NaN.
Proof.
  split.
  - apply (proj1 (C7_parseCard_value_or_NaN "K"%char "d"%char));
      simpl; intuition.
  - apply (proj2 (C7_parseCard_value_or_NaN "X"%char "s"%char)).
    left. simpl. intuition discriminate.
Defined.

(** C7, the claim as stated fails: the unrecognised rank character of [Xs]
    raises nothing, the parser returns [NaN], and a call that holds this
    card passes the parsing step and returns a result. *)
Lemma C7_unrecognised_card_not_rejected :
  parseCard "Xs" = JS.NaN /\
  parseCard "A?" = JS.NaN /\
  fst (calculatePokerOdds ["Xs"; "As"]%string [] 1 0 tieWinLossRng)
  = Normal (aggregate 0 0 0).
Proof.
  repeat split; vm_compute; reflexivity.
Qed.

(** ** One trial *)

Lemma compareOpponents_isWinner my community opps isWinner hasTie :
  fst (compareOpponents my community opps isWinner hasTie) =
  isWinner && forallb (fun o => 0 <=? versus my community o) opps.
Proof.
  revert isWinner hasTie.
  induction opps as [|o opps IH]; intros w t; simpl.
  - now rewrite andb_true_r.
  - fold (versus my community o).
    destruct (Z.ltb_spec (versus my community o) 0) as [Hlt|Hge].
    + simpl. destruct (Z.leb_spec 0 (versus my community o)); [lia|].
      now rewrite andb_false_r.
    + destruct (Z.leb_spec 0 (versus my community o)); [|lia].
      destruct (versus my community o =? 0); apply IH.
Qed.

Lemma compareOpponents_hasTie my community opps isWinner hasTie :
  forallb (fun o => 0 <=? versus my community o) opps = true ->
  snd (compareOpponents my community opps isWinner hasTie) =
  hasTie || existsb (fun o => versus my community o =? 0) opps.
Proof.
  revert isWinner hasTie.
  induction opps as [|o opps IH]; intros w t; simpl.
  - now rewrite orb_false_r.
  - fold (versus my community o).
    intros H. apply andb_prop in H. destruct H as [Ho Hrest].
    apply Z.leb_le in Ho.
    destruct (Z.ltb_spec (versus my community o) 0) as [Hlt|Hge]; [lia|].
    destruct (versus my community o =? 0); rewrite IH by assumption.
    + now rewrite orb_true_r.
    + reflexivity.
Qed.

Lemma updateCounters_bounds (flags : bool * bool) (wins ties : Z) :
  wins <= fst (updateCounters flags (wins, ties)) /\
  ties <= snd (updateCounters flags (wins, ties)) /\
  fst (updateCounters flags (wins, ties)) + snd (updateCounters flags (wins, ties))
  <= wins + ties + 1.
Proof.
  destruct flags as [[|] [|]]; simpl; lia.
Qed.

(** ** The random source *)

Lemma shuffleFrom_calls (a : list Z) (i : nat) (g : Rng) :
  calls (snd (shuffleFrom a i g)) = (calls g + i)%nat.
Proof.
  revert a g. induction i as [|i IH]; intros a g; simpl.
  - lia.
  - rewrite IH. simpl. lia.
Qed.

Lemma assign_length (a : list Z) (i : nat) (v : Z) :
  length (assign a i v) = length a.
Proof.
  revert i. induction a as [|x a IH]; intros [|i]; simpl; auto.
Qed.

Lemma nth_assign (a : list Z) (i j : nat) (v : Z) :
  (i < length a)%nat ->
  nth j (assign a i v) 0 = if Nat.eq_dec i j then v else nth j a 0.
Proof.
  revert i j. induction a as [|x a IH]; intros i j Hi; simpl in Hi; [lia|].
  destruct i as [|i], j as [|j]; simpl; try reflexivity.
  rewrite IH by lia.
  destruct (Nat.eq_dec i j), (Nat.eq_dec (S i) (S j)); auto; lia.
Qed.

Lemma count_assign (a : list Z) (i : nat) (v x : Z) :
  (i < length a)%nat ->
  (count_occ Z.eq_dec (assign a i v) x
   + (if Z.eq_dec (nth i a 0%Z) x then 1 else 0)
   = count_occ Z.eq_dec a x + (if Z.eq_dec v x then 1 else 0))%nat.
Proof.
  revert i. induction a as [|y a IH]; intros i Hi; simpl in Hi; [lia|].
  destruct i as [|i]; simpl.
  - destruct (Z.eq_dec y x), (Z.eq_dec v x); lia.
  - specialize (IH i ltac:(lia)). destruct (Z.eq_dec y x); lia.
Qed.

(** The swap of the shuffle rearranges the array. *)
Lemma swap_perm (a : list Z) (i j : nat) :
  (i < length a)%nat -> (j < length a)%nat -> Permutation (swap a i j) a.
Proof.
  intros Hi Hj. apply (Permutation_count_occ Z.eq_dec). intros x.
  unfold swap.
  pose proof (count_assign a i (nth j a 0) x Hi) as H1.
  pose proof (count_assign (assign a i (nth j a 0)) j (nth i a 0) x) as H2.
  rewrite assign_length in H2. specialize (H2 Hj).
  rewrite nth_assign in H2 by assumption.
  destruct (Nat.eq_dec i j) as [->|Hne]; lia.
Qed.

Lemma random_index_below (g : Rng) (bound : nat) :
  (0 < bound)%nat -> (fst (random_index g bound) < bound)%nat.
Proof.
  intros H. simpl. apply Nat.mod_upper_bound. lia.
Qed.

Lemma shuffleFrom_perm (a : list Z) (i : nat) (g : Rng) :
  (i < length a)%nat -> Permutation (fst (shuffleFrom a i g)) a.
Proof.
  revert a g. induction i as [|i IH]; intros a g Hi; [reflexivity|].
  cbn [shuffleFrom].
  pose proof (random_index_below g (S i + 1) ltac:(lia)) as Hj.
  destruct (random_index g (S i + 1)) as [j g']. cbn [fst] in Hj.
  assert (Permutation (swap a (S i) j) a) as Hswap
    by (apply swap_perm; lia).
  rewrite IH; [assumption|].
  rewrite (Permutation_length Hswap). lia.
Qed.

(** [shuffleArray] returns a rearrangement of its argument, whatever the
    random source answers. *)
Lemma shuffleArray_perm (a : list Z) (g : Rng) :
  Permutation (fst (shuffleArray a g)) a.
Proof.
  unfold shuffleArray. destruct a as [|x a]; [reflexivity|].
  apply shuffleFrom_perm. simpl. lia.
Qed.

Lemma filter_without (l : list Z) (k : Z) (f : Z -> bool) :
  NoDup l ->
  (length (filter f l)
   <= length (filter (fun c => negb (k =? c)%Z && f c) l) + 1)%nat.
Proof.
  induction 1 as [|x l Hx Hnd IH]; simpl; [lia|].
  destruct (Z.eqb_spec k x) as [->|Hne]; cbn [negb andb].
  - assert (filter (fun c => negb (x =? c) && f c) l = filter f l) as ->.
    { apply filter_ext_in. intros c Hc.
      destruct (Z.eqb_spec x c) as [->|]; [contradiction|reflexivity]. }
    destruct (f x); simpl; lia.
  - destruct (f x); simpl; lia.
Qed.

Lemma remaining_length (knownCards : list JS.value) (deck : list Z) :
  NoDup deck ->
  (length deck
   <= length (filter (fun c => negb (includesCard knownCards c)) deck)
      + length knownCards)%nat.
Proof.
  intros Hnd. induction knownCards as [|k known IH].
  - assert (filter (fun c => negb (includesCard [] c)) deck = deck) as ->
        by (clear; induction deck as [|x d IH]; simpl in *;
            [reflexivity|now rewrite IH]).
    simpl. lia.
  - cbn [length]. destruct k as [z| |].
    + rewrite (filter_ext _ (fun c => negb (z =? c)
                                      && negb (includesCard known c)))
        by (intros c; cbn [includesCard existsb]; apply negb_orb).
      pose proof (filter_without deck z
                    (fun c => negb (includesCard known c)) Hnd) as H.
      lia.
    + rewrite (filter_ext _ (fun c => negb (includesCard known c)))
        by reflexivity.
      lia.
    + rewrite (filter_ext _ (fun c => negb (includesCard known c)))
        by reflexivity.
      lia.
Qed.

(** In a call that passes the validation the deck of a trial holds at
    least 45 cards, more than the 21 a trial can deal: the indices of the
    dealing loop and of the slice stay inside the shuffled deck. *)
Lemma deal_in_range (myCards communityCards : list string)
    (opponentCount : Z) (g : Rng) :
  length myCards = 2%nat ->
  (length communityCards <= 5)%nat ->
  1 <= opponentCount <= 8 ->
  (2 * Z.to_nat opponentCount + (5 - length communityCards)
   <= length (fst (shuffleArray (remainingDeckOf myCards communityCards) g)))%nat.
Proof.
  intros Hmy Hcommunity Hopp.
  rewrite (Permutation_length (shuffleArray_perm _ g)).
  unfold remainingDeckOf.
  pose proof (remaining_length
                (parseCards myCards ++ parseCards communityCards)
                (List.map Z.of_nat (seq 0 52))) as H.
  rewrite length_app in H. unfold parseCards in H.
  rewrite !length_map, length_seq in H. unfold parseCards.
  assert (NoDup (List.map Z.of_nat (seq 0 52))) as Hnd.
  { apply Injective_map_NoDup; [|apply seq_NoDup].
    intros x y. apply Nat2Z.inj. }
  specialize (H Hnd). lia.
Qed.

Lemma trial_calls my community deck opp counters g :
  calls (snd (trial my community deck opp counters g))
  = (calls g + (length deck - 1))%nat.
Proof.
  unfold trial, shuffleArray.
  pose proof (shuffleFrom_calls deck (length deck - 1) g) as H.
  destruct (shuffleFrom deck (length deck - 1) g) as [shuffled g'].
  destruct (dealOpponents shuffled (Z.to_nat opp) 0). exact H.
Qed.

Lemma trial_bounds my community deck opp wins ties g :
  let counters := fst (trial my community deck opp (wins, ties) g) in
  wins <= fst counters /\ ties <= snd counters /\
  fst counters + snd counters <= wins + ties + 1.
Proof.
  unfold trial.
  destruct (shuffleArray deck g) as [shuffled g'].
  destruct (dealOpponents shuffled (Z.to_nat opp) 0) as [opps idx].
  cbn [fst]. apply updateCounters_bounds.
Qed.

Lemma trials_bounds n my community deck opp wins ties g :
  let counters := fst (trials n my community deck opp (wins, ties) g) in
  wins <= fst counters /\ ties <= snd counters /\
  fst counters + snd counters <= wins + ties + Z.of_nat n.
Proof.
  revert wins ties g. induction n as [|n IH]; intros wins ties g.
  - simpl. lia.
  - cbn [trials].
    pose proof (trial_bounds my community deck opp wins ties g) as Ht.
    destruct (trial my community deck opp (wins, ties) g) as [[w t] g'].
    cbn [fst snd] in Ht.
    specialize (IH w t g'). cbv zeta in *. lia.
Qed.

Lemma trials_calls n my community deck opp counters g :
  calls (snd (trials n my community deck opp counters g))
  = (calls g + n * (length deck - 1))%nat.
Proof.
  revert counters g. induction n as [|n IH]; intros counters g.
  - simpl. lia.
  - cbn [trials].
    pose proof (trial_calls my community deck opp counters g) as Ht.
    destruct (trial my community deck opp counters g) as [c' g'].
    cbn [snd] in Ht. rewrite IH, Ht. lia.
Qed.

(** ** Integers as Numbers

    The Number of a negative integer is negative: finite, or minus infinity
    beyond the range of the format. Neither rounding step can bring a
    positive mantissa down to zero. *)

Lemma shr_1_digits (s : shr_record) :
  0 <= shr_m s ->
  0 <= shr_m (shr_1 s) /\
  Zdigits2 (shr_m (shr_1 s)) = Z.max 0 (Zdigits2 (shr_m s) - 1).
Proof.
  destruct s as [m r st]. cbn [shr_m]. intros Hm.
  destruct m as [|[q|q|]|]; cbn [shr_m shr_1 Zdigits2 digits2_pos];
    rewrite ?Pos2Z.inj_succ; lia.
Qed.

Lemma iter_shr_1_digits (n : positive) (s : shr_record) :
  0 <= shr_m s ->
  0 <= shr_m (iter_pos shr_1 n s) /\
  Zdigits2 (shr_m (iter_pos shr_1 n s))
  = Z.max 0 (Zdigits2 (shr_m s) - Z.pos n).
Proof.
  revert s. induction n as [n IH|n IH|]; intros s Hs; simpl.
  - destruct (shr_1_digits s Hs) as [H1 E1].
    destruct (IH _ H1) as [H2 E2]. destruct (IH _ H2) as [H3 E3].
    split; [assumption|]. rewrite E3, E2, E1. lia.
  - destruct (IH _ Hs) as [H2 E2]. destruct (IH _ H2) as [H3 E3].
    split; [assumption|]. rewrite E3, E2. lia.
  - apply shr_1_digits, Hs.
Qed.

Lemma digits_positive (z : Z) : 0 <= z -> 0 < Zdigits2 z -> 0 < z.
Proof.
  destruct z; simpl; lia.
Qed.

Lemma digits_of_positive (z : Z) : 0 < z -> 0 < Zdigits2 z.
Proof.
  destruct z; simpl; lia.
Qed.

Lemma shr_fexp_positive (m e : Z) (l : location) :
  0 < m -> emin Float.prec Float.emax <= e ->
  0 < shr_m (fst (shr_fexp Float.prec Float.emax m e l)) /\
  emin Float.prec Float.emax <= snd (shr_fexp Float.prec Float.emax m e l).
Proof.
  intros Hm He. unfold shr_fexp, shr.
  assert (shr_m (shr_record_of_loc m l) = m) as Hrec
    by (destruct l as [|[]]; reflexivity).
  pose proof (digits_of_positive m Hm) as Hd.
  destruct (fexp Float.prec Float.emax (Zdigits2 m + e) - e) as [|n|n] eqn:En;
    cbn [fst snd]; rewrite ?Hrec; try (split; assumption).
  destruct (iter_shr_1_digits n (shr_record_of_loc m l)) as [H0 E];
    [rewrite Hrec; lia|].
  rewrite Hrec in E. split.
  - apply digits_positive; [assumption|]. rewrite E.
    unfold fexp, emin, Float.prec, Float.emax in *. lia.
  - lia.
Qed.

Lemma round_nearest_even_positive (m : Z) (l : location) :
  0 < m -> 0 < round_nearest_even m l.
Proof.
  intros Hm. destruct l as [|[]]; simpl; try lia. destruct (Z.even m); lia.
Qed.

Lemma binary_round_aux_sign (sx : bool) (mx : positive) (ex : Z) :
  emin Float.prec Float.emax <= ex ->
  binary_round_aux Float.prec Float.emax sx (Z.pos mx) ex loc_Exact
  = S754_infinity sx \/
  exists m e,
    binary_round_aux Float.prec Float.emax sx (Z.pos mx) ex loc_Exact
    = S754_finite sx m e.
Proof.
  intros He. unfold binary_round_aux.
  destruct (shr_fexp_positive (Z.pos mx) ex loc_Exact ltac:(lia) He) as [H1 E1].
  destruct (shr_fexp Float.prec Float.emax (Z.pos mx) ex loc_Exact)
    as [mrs' e']. cbn [fst snd] in H1, E1.
  pose proof (round_nearest_even_positive (shr_m mrs')
                (loc_of_shr_record mrs') H1) as Hr.
  destruct (shr_fexp_positive _ e' loc_Exact Hr E1) as [H2 E2].
  destruct (shr_fexp Float.prec Float.emax
              (round_nearest_even (shr_m mrs') (loc_of_shr_record mrs'))
              e' loc_Exact) as [mrs'' e''].
  cbn [fst snd] in H2, E2.
  destruct (shr_m mrs'') as [|m|m]; try lia.
  destruct (e'' <=? Float.emax - Float.prec); [right; now exists m, e''|now left].
Qed.

Lemma of_Z_negative (p : positive) :
  Float.of_Z (Z.neg p) = S754_infinity true \/
  exists m e, Float.of_Z (Z.neg p) = S754_finite true m e.
Proof.
  unfold Float.of_Z, binary_normalize, binary_round, shl_align.
  destruct (fexp Float.prec Float.emax (Z.pos (digits2_pos p) + 0) - 0)
    as [|d|d] eqn:Ed; apply binary_round_aux_sign;
    unfold fexp, emin, Float.prec, Float.emax in *; lia.
Qed.

Lemma aggregate_negative (sims : Z) :
  sims < 0 ->
  aggregate 0 0 sims
  = {| win := S754_zero false; tie := S754_zero false;
       lose := Float.of_Z 100; simulations := sims |}.
Proof.
  intros H. destruct sims as [| |p]; try lia.
  unfold aggregate.
  destruct (of_Z_negative p) as [E|(m & e & E)]; rewrite E; reflexivity.
Qed.

(** ** Validation *)

Lemma validation_passes myCards communityCards opponentCount sims g :
  length myCards = 2%nat ->
  (length communityCards <= 5)%nat ->
  1 <= opponentCount <= 8 ->
  calculatePokerOdds myCards communityCards opponentCount sims g =
  if sims <=? 0 then (Normal (aggregate 0 0 sims), g)
  else
    match numbers (parseCards myCards), numbers (parseCards communityCards) with
    | Some my, Some community =>
        let '(wins, ties, g') :=
          trials (Z.to_nat sims) my community
                 (remainingDeckOf myCards communityCards)
                 opponentCount (0, 0) g in
        (Normal (aggregate wins ties sims), g')
    | _, _ => (SortUnspecified, g)
    end.
Proof.
  intros Hmy Hcommunity Hopp.
  unfold calculatePokerOdds, remainingDeckOf, parseCards.
  rewrite !length_map, Hmy.
  replace (length communityCards <? 0)%nat with false
    by (symmetry; apply Nat.ltb_ge; lia).
  replace (5 <? length communityCards)%nat with false
    by (symmetry; apply Nat.ltb_ge; lia).
  replace (opponentCount <? 1) with false by (symmetry; apply Z.ltb_ge; lia).
  replace (opponentCount >? 8) with false
    by (symmetry; rewrite Z.gtb_ltb; apply Z.ltb_ge; lia).
  cbn [Nat.eqb negb orb]. reflexivity.
Qed.

(** ** Claims on the engine *)

Lemma compareOpponents_outcome (myBestHand : HandEvaluation)
    (finalCommunityCards : list Z) (opponentsCards : list (list Z))
    (wins ties : Z) :
  let flags :=
    compareOpponents myBestHand finalCommunityCards opponentsCards true false in
  let winner :=
    forallb (fun o => 0 <=? versus myBestHand finalCommunityCards o)
            opponentsCards in
  let tied :=
    existsb (fun o => versus myBestHand finalCommunityCards o =? 0)
            opponentsCards in
  fst flags = winner /\
  (winner && snd flags = winner && tied) /\
  updateCounters flags (wins, ties) =
    (if winner then if tied then (wins, ties + 1) else (wins + 1, ties)
     else (wins, ties)).
Proof.
  intros flags winner tied.
  pose proof (compareOpponents_isWinner myBestHand finalCommunityCards
                opponentsCards true false) as Hw.
  pose proof (compareOpponents_hasTie myBestHand finalCommunityCards
                opponentsCards true false) as Ht.
  fold flags winner in Hw. fold winner flags tied in Ht.
  cbn [andb orb] in Hw, Ht.
  destruct flags as [w t]. cbn [fst snd] in *. subst w.
  destruct winner; [rewrite (Ht eq_refl)|]; auto.
Qed.

(** The loop of a trial in terms of the answers of [compareHands], with
    the hands that the trial deals: the subject is counted a winner iff
    [compareHands] answers 0 or more against every opponent; a winning
    trial is counted as a tie iff it answers 0 against some opponent, and
    as a win otherwise. The exit from the loop on the first opponent that
    beats the subject loses no tie of a trial without a loss. *)
Lemma trial_outcome_by_compareHands
    (myCardsEncoded communityCardsEncoded remainingDeck : list Z)
    (opponentCount wins ties : Z) (g : Rng) :
  let shuffledDeck := fst (shuffleArray remainingDeck g) in
  let dealt := dealOpponents shuffledDeck (Z.to_nat opponentCount) 0 in
  let opponentsCards := fst dealt in
  let finalCommunityCards :=
    communityCardsEncoded
    ++ firstn (5 - length communityCardsEncoded)
              (skipn (snd dealt) shuffledDeck) in
  let myBestHand := evaluateHand (myCardsEncoded ++ finalCommunityCards) in
  let flags :=
    compareOpponents myBestHand finalCommunityCards opponentsCards true false in
  let winner :=
    forallb (fun o => 0 <=? versus myBestHand finalCommunityCards o)
            opponentsCards in
  let tied :=
    existsb (fun o => versus myBestHand finalCommunityCards o =? 0)
            opponentsCards in
  fst flags = winner /\
  (winner && snd flags = winner && tied) /\
  fst (trial myCardsEncoded communityCardsEncoded remainingDeck
             opponentCount (wins, ties) g) =
    (if winner then if tied then (wins, ties + 1) else (wins + 1, ties)
     else (wins, ties)).
Proof.
  intros shuffledDeck dealt opponentsCards finalCommunityCards myBestHand.
  pose proof (compareOpponents_outcome myBestHand finalCommunityCards
                opponentsCards wins ties) as H.
  cbv zeta in *. destruct H as (H1 & H2 & H3).
  split; [exact H1|]. split; [exact H2|].
  rewrite <- H3. unfold trial.
  subst myBestHand finalCommunityCards opponentsCards dealt shuffledDeck.
  destruct (shuffleArray remainingDeck g) as [shuffled g'].
  cbn [fst].
  destruct (dealOpponents shuffled (Z.to_nat opponentCount) 0) as [opps idx].
  reflexivity.
Qed.

(** C2. A trial counts a tie against an opponent whose evaluation is not
    equal to the subject's. The subject holds 9h 9d, the board is
    5s 5h 5d 5c 9s and the only opponent is dealt 9c Ah: both evaluations
    are Four of a Kind, the subject's with the key 5 9 and the opponent's
    with the key 5 9 A. The evaluations differ and the opponent holds the
    higher kicker, yet [compareHands] answers 0, the trial is counted a
    tie, and a call of one such trial reports win 0, tie 100, lose 0. *)
Theorem C2_tie_counted_with_unequal_evaluations :
  let myCards := ["9h"; "9d"]%string in
  let communityCards := ["5s"; "5h"; "5d"; "5c"; "9s"]%string in
  let remainingDeck := remainingDeckOf myCards communityCards in
  let shuffledDeck := fst (shuffleArray remainingDeck kickerRng) in
  let myBestHand := evaluateHand ([20; 33] ++ quadsBoard) in
  let opponentBestHand := evaluateHand ([46; 25] ++ quadsBoard) in
  numbers (parseCards myCards) = Some [20; 33] /\
  numbers (parseCards communityCards) = Some quadsBoard /\
  fst (dealOpponents shuffledDeck (Z.to_nat 1) 0) = [[46; 25]] /\
  myBestHand = {| rank := FOUR_OF_A_KIND; keyRanks := [3; 7] |} /\
  opponentBestHand = {| rank := FOUR_OF_A_KIND; keyRanks := [3; 7; 12] |} /\
  myBestHand <> opponentBestHand /\
  compareHands myBestHand opponentBestHand = 0 /\
  fst (trial [20; 33] quadsBoard remainingDeck 1 (0, 0) kickerRng) = (0, 1) /\
  fst (calculatePokerOdds myCards communityCards 1 1 kickerRng)
  = Normal {| win := Float.of_Z 0;
              tie := Float.of_Z 100;
              lose := Float.of_Z 0;
              simulations := 1 |}.
Proof.
  cbv zeta. repeat split; try (vm_compute; reflexivity).
  vm_compute. discriminate.
Qed.

(** C6. With valid inputs and a positive number of trials the call returns;
    the reported values are the two-decimal roundings of
    [(wins / simulations) * 100], of [(ties / simulations) * 100] and of
    [100] minus these two unrounded percentages, where [wins] and [ties] are
    the counters left by the trials. The third value is derived, not
    counted, and is rounded on its own. *)
Theorem C6_percentages_rounded_separately
    (myCards communityCards : list string) (opponentCount sims : Z) (g : Rng)
    (my community : list Z) :
  length myCards = 2%nat ->
  (length communityCards <= 5)%nat ->
  1 <= opponentCount <= 8 ->
  0 < sims ->
  numbers (parseCards myCards) = Some my ->
  numbers (parseCards communityCards) = Some community ->
  exists wins ties g',
    trials (Z.to_nat sims) my community
           (remainingDeckOf myCards communityCards) opponentCount (0, 0) g
    = (wins, ties, g') /\
    0 <= wins /\ 0 <= ties /\ wins + ties <= sims /\
    calculatePokerOdds myCards communityCards opponentCount sims g =
    (Normal
       {| win := Float.toFixed2 (percentage wins sims);
          tie := Float.toFixed2 (percentage ties sims);
          lose :=
            Float.toFixed2
              (Float.sub (Float.sub (Float.of_Z 100) (percentage wins sims))
                         (percentage ties sims));
          simulations := sims |},
     g').
Proof.
  intros Hmy Hcommunity Hopp Hsims Hnum1 Hnum2.
  rewrite validation_passes by assumption.
  destruct (Z.leb_spec sims 0) as [?|_]; [lia|].
  rewrite Hnum1, Hnum2.
  pose proof (trials_bounds (Z.to_nat sims) my community
                (remainingDeckOf myCards communityCards) opponentCount 0 0 g)
    as Hb.
  destruct (trials (Z.to_nat sims) my community
              (remainingDeckOf myCards communityCards) opponentCount (0, 0) g)
    as [[wins ties] g'].
  cbn [fst snd] in Hb. cbv zeta in Hb.
  exists wins, ties, g'. repeat split; try lia.
Qed.

Lemma C6_percentages_rounded_separately_witness :
  exists wins ties g',
    trials (Z.to_nat 3) [12; 37] [0; 18; 33; 48; 1]
           (remainingDeckOf ["As"; "Kd"]%string
                            ["2s"; "7h"; "9d"; "Jc"; "3s"]%string)
           1 (0, 0) tieWinLossRng
    = (wins, ties, g') /\
    0 <= wins /\ 0 <= ties /\ wins + ties <= 3 /\
    calculatePokerOdds ["As"; "Kd"]%string
                       ["2s"; "7h"; "9d"; "Jc"; "3s"]%string 1 3 tieWinLossRng =
    (Normal
       {| win := Float.toFixed2 (percentage wins 3);
          tie := Float.toFixed2 (percentage ties 3);
          lose :=
            Float.toFixed2
              (Float.sub (Float.sub (Float.of_Z 100) (percentage wins 3))
                         (percentage ties 3));
          simulations := 3 |},
     g').
Proof.
  apply (C6_percentages_rounded_separately
           ["As"; "Kd"]%string ["2s"; "7h"; "9d"; "Jc"; "3s"]%string 1 3
           tieWinLossRng [12; 37] [0; 18; 33; 48; 1]);
    try reflexivity; simpl; lia.
Defined.

(** C6, the claim as stated fails: one tie, one win and one loss in three
    trials are reported as 33.33, 33.33 and 33.33, whose sum is not 100. *)
Lemma C6_sum_not_100 :
  fst (calculatePokerOdds ["As"; "Kd"]%string
         ["2s"; "7h"; "9d"; "Jc"; "3s"]%string 1 3 tieWinLossRng)
  = Normal {| win := Float.div (Float.of_Z 3333) (Float.of_Z 100);
              tie := Float.div (Float.of_Z 3333) (Float.of_Z 100);
              lose := Float.div (Float.of_Z 3333) (Float.of_Z 100);
              simulations := 3 |} /\
  Float.add (Float.add (Float.div (Float.of_Z 3333) (Float.of_Z 100))
                       (Float.div (Float.of_Z 3333) (Float.of_Z 100)))
            (Float.div (Float.of_Z 3333) (Float.of_Z 100))
  <> Float.of_Z 100.
Proof.
  split.
  - vm_compute. reflexivity.
  - vm_compute. discriminate.
Qed.

(** C9. A call with a number of hole cards other than 2, with more than 5
    community cards or with an opponent count outside [1, 8] raises the
    error of the validation step. The random source is returned as it was
    received: [Math.random] was not called, and no trial has run. *)
Theorem C9_invalid_input_raises_before_sampling
    (myCards communityCards : list string) (opponentCount sims : Z) (g : Rng) :
  length myCards <> 2%nat \/ (5 < length communityCards)%nat \/
  opponentCount < 1 \/ 8 < opponentCount ->
  exists e : InvalidInput,
    calculatePokerOdds myCards communityCards opponentCount sims g
    = (Throw e, g).
Proof.
  intros H. unfold calculatePokerOdds, parseCards. rewrite !length_map.
  destruct (Nat.eqb_spec (length myCards) 2) as [Hmy|Hmy]; cbn [negb].
  2: now exists HoleCardCount.
  destruct (Nat.ltb_spec (length communityCards) 0) as [?|_]; [lia|].
  destruct (Nat.ltb_spec 5 (length communityCards)) as [?|Hc]; cbn [orb].
  1: now exists CommunityCardCount.
  destruct (Z.ltb_spec opponentCount 1) as [?|Hlo]; cbn [orb].
  1: now exists OpponentCount.
  destruct (Z.gtb_spec opponentCount 8) as [?|Hhi].
  1: now exists OpponentCount.
  lia.
Qed.

Lemma C9_invalid_input_raises_before_sampling_witness :
  exists e : InvalidInput,
    calculatePokerOdds ["As"; "Kd"]%string [] 9 5000 tieWinLossRng
    = (Throw e, tieWinLossRng).
Proof.
  apply (C9_invalid_input_raises_before_sampling
           ["As"; "Kd"]%string [] 9 5000 tieWinLossRng).
  right. right. right. lia.
Defined.

(** The three cases of the specification's test: six community cards,
    three hole cards, nine opponents. *)
Lemma invalid_input_examples :
  calculatePokerOdds ["As"; "Kd"]%string
    ["2s"; "7h"; "9d"; "Jc"; "3s"; "4s"]%string 1 5000 tieWinLossRng
  = (Throw CommunityCardCount, tieWinLossRng) /\
  calculatePokerOdds ["As"; "Kd"; "Qd"]%string [] 1 5000 tieWinLossRng
  = (Throw HoleCardCount, tieWinLossRng) /\
  calculatePokerOdds ["As"; "Kd"]%string [] 9 5000 tieWinLossRng
  = (Throw OpponentCount, tieWinLossRng).
Proof.
  repeat split.
Qed.

(** C10. The [simulations] parameter is not validated. With inputs that
    pass the validation and [simulations <= 0] the call does not raise and
    the body of the main loop never runs ([Math.random] is not called); the
    result is the aggregation of zero wins and zero ties. Its [win], [tie]
    and [lose] are [NaN] when [simulations] is 0, and 0, 0 and 100 when
    [simulations] is negative. *)
Theorem C10_no_trial_when_simulations_not_positive
    (myCards communityCards : list string) (opponentCount sims : Z) (g : Rng) :
  length myCards = 2%nat ->
  (length communityCards <= 5)%nat ->
  1 <= opponentCount <= 8 ->
  sims <= 0 ->
  calculatePokerOdds myCards communityCards opponentCount sims g
  = (Normal (aggregate 0 0 sims), g) /\
  (sims = 0 ->
   win (aggregate 0 0 sims) = S754_nan /\
   tie (aggregate 0 0 sims) = S754_nan /\
   lose (aggregate 0 0 sims) = S754_nan) /\
  (sims < 0 ->
   win (aggregate 0 0 sims) = S754_zero false /\
   tie (aggregate 0 0 sims) = S754_zero false /\
   lose (aggregate 0 0 sims) = Float.of_Z 100).
Proof.
  intros Hmy Hcommunity Hopp Hsims.
  rewrite validation_passes by assumption.
  destruct (Z.leb_spec sims 0) as [_|?]; [|lia].
  split; [reflexivity|]. split.
  - intros ->. repeat split.
  - intros Hneg. rewrite (aggregate_negative sims Hneg). repeat split.
Qed.

Lemma C10_no_trial_when_simulations_not_positive_witness :
  calculatePokerOdds ["As"; "Kd"]%string [] 1 0 tieWinLossRng
  = (Normal (aggregate 0 0 0), tieWinLossRng) /\
  (0 = 0 ->
   win (aggregate 0 0 0) = S754_nan /\
   tie (aggregate 0 0 0) = S754_nan /\
   lose (aggregate 0 0 0) = S754_nan) /\
  (0 < 0 ->
   win (aggregate 0 0 0) = S754_zero false /\
   tie (aggregate 0 0 0) = S754_zero false /\
   lose (aggregate 0 0 0) = Float.of_Z 100).
Proof.
  apply (C10_no_trial_when_simulations_not_positive
           ["As"; "Kd"]%string [] 1 0 tieWinLossRng);
    simpl; lia.
Defined.

(** C10, the claim as stated fails for a negative count: with
    [simulations = -1] the quotients are [0 / -1], not [0 / 0], and the
    fields are 0, 0 and 100. *)
Lemma C10_negative_simulations_not_NaN :
  calculatePokerOdds ["As"; "Kd"]%string [] 1 (-1) tieWinLossRng
  = (Normal {| win := S754_zero false;
               tie := S754_zero false;
               lose := Float.of_Z 100;
               simulations := -1 |},
     tieWinLossRng) /\
  Float.is_nan (win (aggregate 0 0 (-1))) = false /\
  Float.is_nan (tie (aggregate 0 0 (-1))) = false /\
  Float.is_nan (lose (aggregate 0 0 (-1))) = false.
Proof.
  repeat split.
Qed.

(** * Further properties of the code *)

(** ** Card codec: encoding and decoding *)

Lemma parseCard_inv (rankChar suitChar : ascii) (c : Z) :
  parseCard (String rankChar (String suitChar EmptyString)) = JS.Num c ->
  exists rank suit,
    In (rankChar, rank) RANK_MAP /\ In (suitChar, suit) SUIT_MAP /\
    c = suit * 13 + rank.
Proof.
  unfold parseCard. cbn [String.get].
  destruct (JS.prop RANK_MAP (Some rankChar)) as [rank| |] eqn:Hr;
    destruct (JS.prop SUIT_MAP (Some suitChar)) as [suit| |] eqn:Hs;
    cbn [JS.add JS.mul]; try discriminate.
  intros [= <-]. exists rank, suit.
  split; [now apply prop_num_in|]. split; [now apply prop_num_in|reflexivity].
Qed.

Lemma RANK_MAP_injective (c1 c2 : ascii) (v : Z) :
  In (c1, v) RANK_MAP -> In (c2, v) RANK_MAP -> c1 = c2.
Proof.
  unfold RANK_MAP. simpl. intros H1 H2.
  repeat destruct H1 as [H1|H1]; try contradiction;
    repeat destruct H2 as [H2|H2]; try contradiction; congruence.
Qed.

Lemma SUIT_MAP_injective (c1 c2 : ascii) (v : Z) :
  In (c1, v) SUIT_MAP -> In (c2, v) SUIT_MAP -> c1 = c2.
Proof.
  unfold SUIT_MAP. simpl. intros H1 H2.
  repeat destruct H1 as [H1|H1]; try contradiction;
    repeat destruct H2 as [H2|H2]; try contradiction; congruence.
Qed.

Lemma getRank_getSuit_of_code (rank suit : Z) :
  0 <= rank <= 12 -> 0 <= suit ->
  getRank (suit * 13 + rank) = rank /\ getSuit (suit * 13 + rank) = suit.
Proof.
  intros Hr Hs. unfold getRank, getSuit.
  rewrite Z.rem_mod_nonneg by lia. split.
  - rewrite Z.add_comm, Z.mod_add by lia. apply Z.mod_small. lia.
  - rewrite Z.add_comm, Z.div_add by lia. rewrite Z.div_small by lia. lia.
Qed.

(** X1. Decoding undoes parsing: when [parseCard] returns a number for a
    two-character string, [getRank] and [getSuit] of that number are the
    values that [RANK_MAP] and [SUIT_MAP] give to the two characters. *)
Theorem parseCard_then_getRank_getSuit (rankChar suitChar : ascii) (c : Z) :
  parseCard (String rankChar (String suitChar EmptyString)) = JS.Num c ->
  In (rankChar, getRank c) RANK_MAP /\ In (suitChar, getSuit c) SUIT_MAP.
Proof.
  intros H. destruct (parseCard_inv _ _ _ H) as (rank & suit & Hr & Hs & ->).
  pose proof (RANK_MAP_range _ _ Hr). pose proof (SUIT_MAP_range _ _ Hs).
  destruct (getRank_getSuit_of_code rank suit) as [-> ->]; try lia.
  now split.
Qed.

Lemma parseCard_then_getRank_getSuit_witness :
  In ("K"%char, getRank 37) RANK_MAP /\ In ("d"%char, getSuit 37) SUIT_MAP.
Proof.
  apply (parseCard_then_getRank_getSuit "K"%char "d"%char 37). reflexivity.
Defined.

(** X2. Two two-character strings that [parseCard] maps to the same number
    are the same string: the recognised cards get 52 different codes. *)
Theorem parseCard_injective (r1 s1 r2 s2 : ascii) (c : Z) :
  parseCard (String r1 (String s1 EmptyString)) = JS.Num c ->
  parseCard (String r2 (String s2 EmptyString)) = JS.Num c ->
  r1 = r2 /\ s1 = s2.
Proof.
  intros H1 H2.
  destruct (parseCard_inv _ _ _ H1) as (rk1 & st1 & Hr1 & Hs1 & E1).
  destruct (parseCard_inv _ _ _ H2) as (rk2 & st2 & Hr2 & Hs2 & E2).
  pose proof (RANK_MAP_range _ _ Hr1). pose proof (SUIT_MAP_range _ _ Hs1).
  pose proof (RANK_MAP_range _ _ Hr2). pose proof (SUIT_MAP_range _ _ Hs2).
  assert (rk1 = rk2 /\ st1 = st2) as [-> ->] by lia.
  split; [eapply RANK_MAP_injective|eapply SUIT_MAP_injective]; eassumption.
Qed.

Lemma parseCard_injective_witness : "A"%char = "A"%char /\ "s"%char = "s"%char.
Proof.
  apply (parseCard_injective "A"%char "s"%char "A"%char "s"%char 12);
    reflexivity.
Defined.

(** X3. [parseCard] looks at the first two characters only: whatever
    follows them is ignored, and a string of fewer than two characters
    gives [NaN]. *)
Theorem parseCard_first_two_characters :
  (forall (rankChar suitChar : ascii) (rest : string),
     parseCard (String rankChar (String suitChar rest))
     = parseCard (String rankChar (String suitChar EmptyString))) /\
  (forall cardStr : string,
     (String.length cardStr < 2)%nat -> parseCard cardStr = JS.NaN).
Proof.
  split; [reflexivity|].
  intros [|a [|b rest]] H; simpl in H; try lia; unfold parseCard;
    cbn [String.get JS.prop].
  - reflexivity.
  - now destruct (JS.prop RANK_MAP (Some a)).
Qed.

Lemma parseCard_first_two_characters_witness :
  parseCard "Ashes" = parseCard "As" /\
  ((String.length "A" < 2)%nat /\ parseCard "A" = JS.NaN).
Proof.
  destruct parseCard_first_two_characters as [Hrest Hshort].
  split; [apply Hrest|].
  assert (String.length "A" < 2)%nat as Hlen by (simpl; lia).
  split; [exact Hlen|apply Hshort, Hlen].
Defined.

(** X4. Card codes and (rank, suit) pairs correspond: [getRank] and
    [getSuit] recover [rank] and [suit] from [suit * 13 + rank], and every
    code from 0 to 51 is rebuilt from its rank, between 0 and 12, and its
    suit, between 0 and 3. *)
Theorem getRank_getSuit_code (card : Z) :
  0 <= card < 52 ->
  0 <= getRank card <= 12 /\ 0 <= getSuit card <= 3 /\
  getSuit card * 13 + getRank card = card /\
  (forall rank suit,
     0 <= rank <= 12 -> 0 <= suit ->
     card = suit * 13 + rank -> getRank card = rank /\ getSuit card = suit).
Proof.
  intros Hc. unfold getRank, getSuit. rewrite Z.rem_mod_nonneg by lia.
  pose proof (Z.mod_pos_bound card 13 ltac:(lia)).
  pose proof (Z.div_mod card 13 ltac:(lia)).
  assert (0 <= card / 13 <= 3) as Hsuit.
  { split; [apply Z.div_pos; lia|].
    assert (card / 13 < 4) by (apply Z.div_lt_upper_bound; lia). lia. }
  split; [lia|]. split; [exact Hsuit|]. split; [lia|].
  intros rank suit Hr Hs E.
  destruct (getRank_getSuit_of_code rank suit Hr Hs) as [E1 E2].
  unfold getRank, getSuit in E1, E2. rewrite <- E in E1, E2.
  rewrite Z.rem_mod_nonneg in E1 by lia. now split.
Qed.

Lemma getRank_getSuit_code_witness :
  0 <= getRank 37 <= 12 /\ 0 <= getSuit 37 <= 3 /\
  getSuit 37 * 13 + getRank 37 = 37 /\
  (forall rank suit,
     0 <= rank <= 12 -> 0 <= suit ->
     37 = suit * 13 + rank -> getRank 37 = rank /\ getSuit 37 = suit).
Proof.
  apply (getRank_getSuit_code 37). lia.
Defined.

(** ** The shuffle *)

Lemma shuffleFrom_draw (a : list Z) (i : nat) (g : Rng) :
  draw (snd (shuffleFrom a i g)) = draw g.
Proof.
  revert a g. induction i as [|i IH]; intros a g; simpl; [reflexivity|].
  now rewrite IH.
Qed.

(** X5. [shuffleArray] returns a rearrangement of its argument, of the same
    length, whatever the random source answers, and asks the random source
    once for each position but the first. *)
Theorem shuffleArray_rearranges (array : list Z) (g : Rng) :
  Permutation (fst (shuffleArray array g)) array /\
  length (fst (shuffleArray array g)) = length array /\
  calls (snd (shuffleArray array g)) = (calls g + (length array - 1))%nat /\
  draw (snd (shuffleArray array g)) = draw g.
Proof.
  split; [apply shuffleArray_perm|].
  split; [apply Permutation_length, shuffleArray_perm|].
  unfold shuffleArray. split; [apply shuffleFrom_calls|apply shuffleFrom_draw].
Qed.

Lemma assign_app (b t : list Z) (i : nat) (v : Z) :
  (i < length b)%nat -> assign (b ++ t) i v = assign b i v ++ t.
Proof.
  revert i. induction b as [|x b IH]; intros i Hi; simpl in Hi; [lia|].
  destruct i as [|i]; simpl; [reflexivity|]. rewrite IH by lia. reflexivity.
Qed.

Lemma swap_app (b t : list Z) (i j : nat) :
  (i < length b)%nat -> (j < length b)%nat ->
  swap (b ++ t) i j = swap b i j ++ t.
Proof.
  intros Hi Hj. unfold swap.
  rewrite !app_nth1 by assumption.
  rewrite assign_app by assumption.
  rewrite assign_app by (rewrite assign_length; assumption).
  reflexivity.
Qed.

(** The steps from [i] down touch the first [i + 1] positions only. *)
Lemma shuffleFrom_app (b t : list Z) (i : nat) (g : Rng) :
  (i < length b)%nat ->
  fst (shuffleFrom (b ++ t) i g) = fst (shuffleFrom b i g) ++ t.
Proof.
  revert b g. induction i as [|i IH]; intros b g Hi; [reflexivity|].
  cbn [shuffleFrom].
  pose proof (random_index_below g (S i + 1) ltac:(lia)) as Hj.
  destruct (random_index g (S i + 1)) as [j g']. cbn [fst] in Hj.
  rewrite swap_app by lia.
  apply IH. rewrite (Permutation_length (swap_perm b (S i) j ltac:(lia) ltac:(lia))).
  lia.
Qed.

(** The result depends on the answers from the current call on only. *)
Lemma shuffleFrom_ext (a : list Z) (i : nat) (d d' : nat -> nat) (c : nat) :
  (forall k, (c <= k)%nat -> d k = d' k) ->
  fst (shuffleFrom a i {| draw := d; calls := c |})
  = fst (shuffleFrom a i {| draw := d'; calls := c |}).
Proof.
  revert a c. induction i as [|i IH]; intros a c H; [reflexivity|].
  cbn [shuffleFrom random_index draw calls].
  rewrite (H c) by lia. apply IH. intros k Hk. apply H. lia.
Qed.

Lemma swap_last (a : list Z) (j : nat) :
  (j < length a)%nat ->
  exists b, swap a (length a - 1) j = b ++ [nth j a 0] /\
            length b = (length a - 1)%nat.
Proof.
  intros Hj.
  pose proof (Permutation_length
                (swap_perm a (length a - 1) j ltac:(lia) Hj)) as Hlen.
  destruct (exists_last (l := swap a (length a - 1) j)) as (b & y & E).
  { intros E. rewrite E in Hlen. simpl in Hlen. lia. }
  exists b. rewrite E in Hlen. rewrite length_app in Hlen. simpl in Hlen.
  split; [|lia]. rewrite E. f_equal. f_equal.
  assert (nth (length a - 1) (swap a (length a - 1) j) 0 = y) as Hy.
  { rewrite E, app_nth2 by lia.
    replace (length a - 1 - length b)%nat with 0%nat by lia. reflexivity. }
  rewrite <- Hy. unfold swap.
  rewrite nth_assign by (rewrite assign_length; lia).
  destruct (Nat.eq_dec j (length a - 1)) as [->|Hne]; [reflexivity|].
  rewrite nth_assign by lia.
  destruct (Nat.eq_dec (length a - 1) (length a - 1)); [reflexivity|lia].
Qed.

Lemma shuffle_reaches (n : nat) :
  forall (a a' : list Z) (c : nat),
    length a = n -> Permutation a a' ->
    exists d : nat -> nat,
      fst (shuffleFrom a (length a - 1) {| draw := d; calls := c |}) = a'.
Proof.
  induction n as [|n IH]; intros a a' c Hlen Hperm.
  - destruct a; [|discriminate]. apply Permutation_nil in Hperm. subst.
    now exists (fun _ => 0%nat).
  - destruct (exists_last (l := a')) as (l' & y & ->).
    { intros ->. apply Permutation_sym, Permutation_nil in Hperm.
      subst. discriminate. }
    destruct n as [|n].
    + destruct a as [|x [|? ?]]; try discriminate.
      exists (fun _ => 0%nat). simpl.
      pose proof (Permutation_length Hperm) as Hl.
      rewrite length_app in Hl. simpl in Hl.
      destruct l'; [|simpl in Hl; lia].
      simpl in Hperm |- *. apply Permutation_length_1_inv in Hperm.
      now symmetry.
    + assert (In y a) as Hy.
      { apply (Permutation_in _ (Permutation_sym Hperm)).
        apply in_or_app. right. now left. }
      apply (In_nth _ _ 0) in Hy. destruct Hy as (j & Hj & Hnth).
      destruct (swap_last a j Hj) as (b & Hswap & Hb).
      rewrite Hnth in Hswap.
      assert (Permutation b l') as Hbl.
      { apply (Permutation_app_inv_r [y]).
        rewrite <- Hswap, <- Hperm. apply swap_perm; lia. }
      destruct (IH b l' (S c) ltac:(lia) Hbl) as (d' & Hd').
      exists (fun k => if (k =? c)%nat then j else d' k).
      replace (length a - 1)%nat with (S n) by lia.
      cbn [shuffleFrom random_index draw calls].
      rewrite Nat.eqb_refl.
      replace (S n + 1)%nat with (length a) by lia.
      rewrite Nat.mod_small by assumption.
      replace (swap a (S n) j) with (swap a (length a - 1) j)
        by (f_equal; lia).
      rewrite Hswap.
      rewrite (shuffleFrom_ext _ _ _ d') by
        (intros k Hk; destruct (Nat.eqb_spec k c); [lia|reflexivity]).
      rewrite shuffleFrom_app by lia.
      replace n with (length b - 1)%nat by lia. now rewrite Hd'.
Qed.

(** X6. Every rearrangement of the array can come out of [shuffleArray]:
    for each there are answers of the random source that produce it. *)
Theorem shuffleArray_reaches_every_rearrangement (array target : list Z) :
  Permutation array target ->
  exists d : nat -> nat,
    fst (shuffleArray array {| draw := d; calls := 0 |}) = target.
Proof.
  intros H. unfold shuffleArray.
  now apply (shuffle_reaches (length array) array target 0).
Qed.

Lemma shuffleArray_reaches_every_rearrangement_witness :
  exists d : nat -> nat,
    fst (shuffleArray [1; 2; 3] {| draw := d; calls := 0 |}) = [3; 1; 2].
Proof.
  apply (shuffleArray_reaches_every_rearrangement [1; 2; 3] [3; 1; 2]).
  apply Permutation_cons_app with (l1 := [3]) (l2 := [2]). apply perm_swap.
Defined.

(** ** The counting loops *)

Lemma counts_of_get (keys : list Z) (m : JS.Map) (k : Z) :
  counts_of keys m ->
  JS.get m k = if in_dec Z.eq_dec k keys then Some (occurrences keys k)
               else None.
Proof.
  intros (Hnd & Hkeys & Hget).
  destruct (in_dec Z.eq_dec k keys) as [Hin|Hnotin]; [now apply Hget|].
  apply get_none_iff. now rewrite Hkeys.
Qed.

(** X7. Looking a rank up in the [Map] of [countRanks] gives the number of
    cards of that rank, and nothing ([undefined]) for a rank that no card
    has; [countSuits] does the same for suits. *)
Theorem countRanks_countSuits_lookup (cards : list Z) (k : Z) :
  JS.get (countRanks cards) k
  = (if in_dec Z.eq_dec k (List.map getRank cards)
     then Some (Z.of_nat (count_occ Z.eq_dec (List.map getRank cards) k))
     else None) /\
  JS.get (countSuits cards) k
  = (if in_dec Z.eq_dec k (List.map getSuit cards)
     then Some (Z.of_nat (count_occ Z.eq_dec (List.map getSuit cards) k))
     else None).
Proof.
  split.
  - apply (counts_of_get _ _ k (countRanks_counts cards)).
  - apply (counts_of_get _ _ k (countSuits_counts cards)).
Qed.

Lemma keys_countBy (key : Z -> Z) (cards : list Z) (m : JS.Map) :
  List.map fst (countBy key cards m)
  = fold_left JS.set_add (List.map key cards) (List.map fst m).
Proof.
  revert m. induction cards as [|card cards IH]; intros m; [reflexivity|].
  unfold countBy in *. cbn [fold_left List.map]. rewrite IH.
  f_equal. apply keys_set.
Qed.

Lemma occurrences_positive_values (keys : list Z) (m : JS.Map) :
  counts_of keys m -> Forall (fun v => 1 <= v) (JS.values m).
Proof.
  intros Hm. apply Forall_forall. intros v Hv.
  apply (counts_of_values_in _ _ v Hm) in Hv.
  destruct Hv as (k & Hk & <-). apply occurrences_pos in Hk. lia.
Qed.

(** X8. The [Map] of [countRanks] lists the distinct ranks in the order of
    their first occurrence, each once; its counts are at least 1 and add up
    to the number of cards. The same holds for [countSuits]. *)
Theorem countRanks_countSuits_entries (cards : list Z) :
  (List.map fst (countRanks cards) = JS.from_set (List.map getRank cards) /\
   NoDup (List.map fst (countRanks cards)) /\
   Forall (fun v => 1 <= v) (JS.values (countRanks cards)) /\
   total (JS.values (countRanks cards)) = Z.of_nat (length cards)) /\
  (List.map fst (countSuits cards) = JS.from_set (List.map getSuit cards) /\
   NoDup (List.map fst (countSuits cards)) /\
   Forall (fun v => 1 <= v) (JS.values (countSuits cards)) /\
   total (JS.values (countSuits cards)) = Z.of_nat (length cards)).
Proof.
  split.
  - split; [apply (keys_countBy getRank cards [])|].
    split; [apply (countRanks_counts cards)|].
    split; [apply (occurrences_positive_values _ _ (countRanks_counts cards))|].
    apply total_values_countRanks.
  - split; [apply (keys_countBy getSuit cards [])|].
    split; [apply (countSuits_counts cards)|].
    split; [apply (occurrences_positive_values _ _ (countSuits_counts cards))|].
    apply (total_values_countBy getSuit cards []).
Qed.

(** ** The flush test and the straight test *)

Lemma count_occ_le_length (l : list Z) (x : Z) :
  (count_occ Z.eq_dec l x <= length l)%nat.
Proof.
  induction l as [|y l IH]; simpl; [lia|]. destruct (Z.eq_dec y x); lia.
Qed.

(** X9. [isFlush] answers true exactly when at least five of the cards have
    the same suit; in particular it answers false for fewer than five
    cards. *)
Theorem isFlush_iff_five_of_a_suit (cards : list Z) :
  (isFlush cards = true <->
   exists suit,
     (5 <= count_occ Z.eq_dec (List.map getSuit cards) suit)%nat) /\
  ((length cards < 5)%nat -> isFlush cards = false).
Proof.
  assert (isFlush cards = true <->
          exists suit,
            (5 <= count_occ Z.eq_dec (List.map getSuit cards) suit)%nat) as H.
  { rewrite isFlush_flushTest. unfold flushTest, suitCount, occurrences.
    rewrite existsb_exists. split.
    - intros (s & _ & Hs). exists s. apply Z.leb_le in Hs. lia.
    - intros (s & Hs). exists s. split.
      + apply (count_occ_In Z.eq_dec). lia.
      + apply Z.leb_le. lia. }
  split; [exact H|]. intros Hlen.
  destruct (isFlush cards) eqn:E; [|reflexivity].
  destruct (proj1 H eq_refl) as (s & Hs).
  pose proof (count_occ_le_length (List.map getSuit cards) s) as Hle.
  rewrite length_map in Hle. lia.
Qed.

Lemma isFlush_iff_five_of_a_suit_witness :
  isFlush [card 12 0; card 12 1] = false.
Proof.
  apply (proj2 (isFlush_iff_five_of_a_suit [card 12 0; card 12 1])).
  simpl. lia.
Defined.

Lemma hasWheel_five (ranks : list Z) :
  hasWheel ranks -> (5 <= length (nodup Z.eq_dec ranks))%nat.
Proof.
  intros (H12 & H0 & H1 & H2 & H3).
  change 5%nat with (length [12; 0; 1; 2; 3]).
  apply NoDup_incl_length.
  - repeat constructor; simpl; intuition lia.
  - intros r [<-|[<-|[<-|[<-|[<-|[]]]]]]; now apply nodup_In.
Qed.

Lemma hasRun_five (ranks : list Z) (low : Z) :
  hasRun ranks low -> (5 <= length (nodup Z.eq_dec ranks))%nat.
Proof.
  intros (H0 & H1 & H2 & H3 & H4).
  change 5%nat with (length [low; low + 1; low + 2; low + 3; low + 4]).
  apply NoDup_incl_length.
  - repeat constructor; simpl; intuition lia.
  - intros r [<-|[<-|[<-|[<-|[<-|[]]]]]]; now apply nodup_In.
Qed.

(** X10. [isStraight] depends on the set of ranks only, not on their order
    or repetition, and answers false when fewer than five distinct ranks
    are present. *)
Theorem isStraight_set_of_ranks (ranks1 ranks2 : list Z) :
  ((forall r, In r ranks1 <-> In r ranks2) ->
   isStraight ranks1 = isStraight ranks2) /\
  ((length (nodup Z.eq_dec ranks1) < 5)%nat -> isStraight ranks1 = false).
Proof.
  split.
  - intros H. apply eq_true_iff_eq. rewrite !isStraight_iff.
    unfold hasWheel. rewrite !H.
    assert (forall low, hasRun ranks1 low <-> hasRun ranks2 low) as Hrun
      by (intros low; now apply hasRun_ext).
    split; (intros [Hw|[low Hl]]; [now left|right; exists low; now apply Hrun]).
  - intros Hlen. destruct (isStraight ranks1) eqn:E; [|reflexivity].
    apply isStraight_iff in E. destruct E as [Hw|[low Hl]].
    + pose proof (hasWheel_five _ Hw). lia.
    + pose proof (hasRun_five _ _ Hl). lia.
Qed.

Lemma isStraight_set_of_ranks_witness :
  isStraight [3; 1; 2; 0; 12; 12] = isStraight [12; 0; 1; 2; 3] /\
  isStraight [5; 5; 6; 7; 8; 8; 5] = false.
Proof.
  split.
  - apply (proj1 (isStraight_set_of_ranks [3; 1; 2; 0; 12; 12] [12; 0; 1; 2; 3])).
    intros r. simpl. intuition.
  - apply (proj2 (isStraight_set_of_ranks [5; 5; 6; 7; 8; 8; 5] [])).
    vm_compute. lia.
Defined.

(** ** The evaluation does not depend on the order of the cards *)

Section SortedUnique.

Context {A : Type} (R : A -> A -> Prop).
Hypothesis R_antisym : forall x y, R x y -> R y x -> x = y.

Lemma sorted_unique (l1 l2 : list A) :
  StronglySorted R l1 -> StronglySorted R l2 ->
  Permutation l1 l2 -> l1 = l2.
Proof.
  revert l2. induction l1 as [|a l1 IH]; intros l2 H1 H2 Hp.
  - now apply Permutation_nil in Hp.
  - destruct l2 as [|b l2].
    + symmetry in Hp. now apply Permutation_nil in Hp.
    + apply StronglySorted_inv in H1, H2.
      destruct H1 as [H1 Ha], H2 as [H2 Hb].
      rewrite Forall_forall in Ha, Hb.
      assert (a = b) as ->.
      { assert (In a (b :: l2)) as Hina
            by (apply (Permutation_in _ Hp); now left).
        assert (In b (a :: l1)) as Hinb
            by (apply (Permutation_in _ (Permutation_sym Hp)); now left).
        destruct Hina as [->|Hina]; [reflexivity|].
        destruct Hinb as [->|Hinb]; [reflexivity|].
        apply R_antisym; [now apply Ha|now apply Hb]. }
      f_equal. apply IH; auto. now apply Permutation_cons_inv in Hp.
Qed.

Lemma sorted_nth (l : list A) :
  StronglySorted R l ->
  forall i j a b,
    nth_error l i = Some a -> nth_error l j = Some b ->
    (i < j)%nat -> R a b.
Proof.
  induction 1 as [|x l Hs IH Hx]; intros i j a b Hi Hj Hlt.
  - destruct i; discriminate.
  - destruct j as [|j]; [lia|]. simpl in Hj.
    destruct i as [|i]; simpl in Hi.
    + injection Hi as <-. rewrite Forall_forall in Hx.
      apply Hx. now apply nth_error_In with j.
    + apply (IH i j); auto. lia.
Qed.

End SortedUnique.

(** The order of the comparator that sorts the entries for [keyRanks]:
    higher count first, then higher rank. *)
Lemma keyRanks_sorted_entries (cards : list Z) :
  StronglySorted
    (fun a b : Z * Z =>
       snd b < snd a \/ (snd b = snd a /\ fst b <= fst a))
    (JS.sort
       (fun a b =>
          if negb (snd b =? snd a) then snd b - snd a else fst b - fst a)
       (JS.entries (countRanks cards))).
Proof.
  apply sort_sorted.
  - intros x y z. lia.
  - intros x y. destruct (Z.eqb_spec (snd y) (snd x)); cbn [negb]; lia.
  - intros x y. destruct (Z.eqb_spec (snd y) (snd x)); cbn [negb]; lia.
Qed.

Lemma get_some_in (m : JS.Map) (k v : Z) :
  JS.get m k = Some v -> In (k, v) m.
Proof.
  induction m as [|[k' v'] m IH]; simpl; [discriminate|].
  destruct (Z.eqb_spec k k') as [E|Hne].
  - intros [= ->]. left. now rewrite E.
  - intros H. right. now apply IH.
Qed.

Lemma counts_of_in (keys : list Z) (m : JS.Map) (k v : Z) :
  counts_of keys m ->
  In (k, v) m <-> In k keys /\ v = occurrences keys k.
Proof.
  intros (Hnd & Hkeys & Hget). split.
  - intros Hin. pose proof (get_in m k v Hnd Hin) as Hkv.
    assert (In k keys) as Hk by (apply Hkeys; now apply (in_map fst) in Hin).
    rewrite (Hget k Hk) in Hkv. split; [assumption|congruence].
  - intros [Hk ->]. apply get_some_in. now apply Hget.
Qed.

Lemma NoDup_entries (m : JS.Map) : NoDup (List.map fst m) -> NoDup m.
Proof.
  apply NoDup_map_inv.
Qed.

Lemma occurrences_perm (l1 l2 : list Z) (k : Z) :
  Permutation l1 l2 -> occurrences l1 k = occurrences l2 k.
Proof.
  intros H. unfold occurrences.
  now rewrite (proj1 (Permutation_count_occ Z.eq_dec l1 l2) H k).
Qed.

Lemma countRanks_perm (cards1 cards2 : list Z) :
  Permutation cards1 cards2 ->
  Permutation (countRanks cards1) (countRanks cards2).
Proof.
  intros Hp.
  pose proof (countRanks_counts cards1) as H1.
  pose proof (countRanks_counts cards2) as H2.
  pose proof (Permutation_map getRank Hp) as Hranks.
  apply NoDup_Permutation.
  - apply NoDup_entries, H1.
  - apply NoDup_entries, H2.
  - intros [k v].
    rewrite (counts_of_in _ _ k v H1), (counts_of_in _ _ k v H2).
    rewrite (occurrences_perm _ _ k Hranks).
    split; intros [Hin Hv]; (split; [|assumption]).
    + now apply (Permutation_in _ Hranks).
    + now apply (Permutation_in _ (Permutation_sym Hranks)).
Qed.

Lemma includes_perm (l1 l2 : list Z) (x : Z) :
  Permutation l1 l2 -> JS.includes l1 x = JS.includes l2 x.
Proof.
  intros H. apply eq_true_iff_eq. rewrite !includes_iff.
  split; apply Permutation_in; [|symmetry]; assumption.
Qed.

Lemma isFlush_perm (cards1 cards2 : list Z) :
  Permutation cards1 cards2 -> isFlush cards1 = isFlush cards2.
Proof.
  intros Hp. pose proof (Permutation_map getSuit Hp) as Hsuits.
  apply eq_true_iff_eq. rewrite !isFlush_flushTest. unfold flushTest.
  rewrite !existsb_exists. unfold suitCount.
  split; intros (s & Hin & Hs); exists s.
  - rewrite <- (occurrences_perm _ _ s Hsuits).
    split; [now apply (Permutation_in _ Hsuits)|assumption].
  - rewrite (occurrences_perm _ _ s Hsuits).
    split; [now apply (Permutation_in _ (Permutation_sym Hsuits))|assumption].
Qed.

Lemma isStraight_perm (ranks1 ranks2 : list Z) :
  Permutation ranks1 ranks2 -> isStraight ranks1 = isStraight ranks2.
Proof.
  intros Hp. apply eq_true_iff_eq. rewrite !isStraight_iff.
  assert (forall r, In r ranks1 <-> In r ranks2) as H
    by (intros r; split; apply Permutation_in; [|symmetry]; assumption).
  unfold hasWheel. rewrite !H.
  split; (intros [Hw|[low Hl]];
          [now left|right; exists low; revert Hl; now apply hasRun_ext]).
Qed.

(** X11. The evaluation of a hand does not depend on the order in which
    its cards are given: rearranged cards get the same category and the
    same key. *)
Theorem evaluateHand_order_independent (cards1 cards2 : list Z) :
  Permutation cards1 cards2 -> evaluateHand cards1 = evaluateHand cards2.
Proof.
  intros Hp. pose proof (Permutation_map getRank Hp) as Hranks.
  pose proof (countRanks_perm _ _ Hp) as Hentries.
  unfold evaluateHand.
  rewrite (isFlush_perm _ _ Hp), (isStraight_perm _ _ Hranks).
  rewrite !(includes_perm _ _ _ Hranks).
  assert (JS.sort (fun a b => b - a) (JS.values (countRanks cards1))
          = JS.sort (fun a b => b - a) (JS.values (countRanks cards2))) as ->.
  { apply descending_unique; try apply sort_descending.
    rewrite !sort_perm. unfold JS.values. now apply Permutation_map. }
  f_equal. f_equal.
  apply (sorted_unique
           (fun a b : Z * Z =>
              snd b < snd a \/ (snd b = snd a /\ fst b <= fst a))).
  - intros [k1 v1] [k2 v2]. simpl. intros H1 H2. f_equal; lia.
  - apply keyRanks_sorted_entries.
  - apply keyRanks_sorted_entries.
  - rewrite !sort_perm. exact Hentries.
Qed.

Lemma evaluateHand_order_independent_witness :
  evaluateHand [card 12 0; card 11 0; card 12 1]
  = evaluateHand [card 11 0; card 12 0; card 12 1].
Proof.
  apply (evaluateHand_order_independent
           [card 12 0; card 11 0; card 12 1]
           [card 11 0; card 12 0; card 12 1]).
  apply perm_swap.
Defined.

(** X12. The key of an evaluation lists the distinct ranks by falling
    multiplicity and, among ranks of the same multiplicity, by falling
    rank: of two positions the earlier one holds the rank with more cards,
    or with as many cards and the higher rank. *)
Theorem keyRanks_by_multiplicity_then_rank (cards : list Z) (i j : nat)
    (a b : Z) :
  (i < j)%nat ->
  nth_error (keyRanks (evaluateHand cards)) i = Some a ->
  nth_error (keyRanks (evaluateHand cards)) j = Some b ->
  multiplicity cards b < multiplicity cards a \/
  (multiplicity cards b = multiplicity cards a /\ b < a).
Proof.
  intros Hij Ha Hb. unfold evaluateHand in Ha, Hb. cbn [keyRanks] in Ha, Hb.
  pose proof (keyRanks_sorted_entries cards) as Hsorted.
  set (L := JS.sort _ (JS.entries (countRanks cards))) in *.
  rewrite nth_error_map in Ha, Hb.
  destruct (nth_error L i) as [[ka va]|] eqn:Ea; [|discriminate].
  destruct (nth_error L j) as [[kb vb]|] eqn:Eb; [|discriminate].
  simpl in Ha, Hb. injection Ha as ->. injection Hb as ->.
  pose proof (sorted_nth _ L Hsorted i j _ _ Ea Eb Hij) as HR. simpl in HR.
  assert (forall k v, In (k, v) L -> v = multiplicity cards k) as Hv.
  { intros k v Hin. unfold L in Hin. rewrite sort_in in Hin.
    now apply (counts_of_in _ _ k v (countRanks_counts cards)) in Hin. }
  rewrite <- (Hv a va) by (eapply nth_error_In; eassumption).
  rewrite <- (Hv b vb) by (eapply nth_error_In; eassumption).
  assert (a <> b) as Hne.
  { intros ->.
    assert (NoDup (List.map fst L)) as Hnd.
    { apply (Permutation_NoDup
               (Permutation_sym (Permutation_map fst (sort_perm _ _)))).
      apply (countRanks_counts cards). }
    rewrite NoDup_nth_error in Hnd.
    assert (i = j); [|lia]. apply Hnd.
    - rewrite length_map. apply nth_error_Some. congruence.
    - rewrite !nth_error_map, Ea, Eb. reflexivity. }
  lia.
Qed.

Lemma keyRanks_by_multiplicity_then_rank_witness :
  multiplicity wheelHand 12 < multiplicity wheelHand 7 \/
  (multiplicity wheelHand 12 = multiplicity wheelHand 7 /\ 12 < 7).
Proof.
  apply (keyRanks_by_multiplicity_then_rank wheelHand 0 1 7 12);
    [lia|reflexivity|reflexivity].
Defined.

(** ** Comparison *)

Lemma compareKeys_nil_r (k : list Z) : compareKeys k [] = 0.
Proof.
  induction k as [|x k IH]; simpl; auto.
Qed.

Lemma compareKeys_antisym (k1 k2 : list Z) :
  compareKeys k2 k1 = - compareKeys k1 k2.
Proof.
  revert k2. induction k1 as [|x k1 IH]; intros k2.
  - simpl. now rewrite compareKeys_nil_r.
  - destruct k2 as [|y k2]; simpl.
    + now rewrite compareKeys_nil_r.
    + destruct (Z.gtb_spec x y), (Z.gtb_spec y x),
        (Z.ltb_spec x y), (Z.ltb_spec y x); try lia. apply IH.
Qed.

(** X13. Swapping the two hands negates the answer of [compareHands],
    whatever the lengths of the keys; a hand compares equal to itself, and
    the answer is always 1, -1 or 0. *)
Theorem compareHands_antisymmetric (hand1 hand2 : HandEvaluation) :
  compareHands hand2 hand1 = - compareHands hand1 hand2 /\
  compareHands hand1 hand1 = 0 /\
  (compareHands hand1 hand2 = 1 \/ compareHands hand1 hand2 = -1 \/
   compareHands hand1 hand2 = 0).
Proof.
  assert (forall h1 h2, compareHands h2 h1 = - compareHands h1 h2) as H.
  { intros h1 h2. unfold compareHands.
    destruct (Z.gtb_spec (rank h1) (rank h2)), (Z.gtb_spec (rank h2) (rank h1)),
      (Z.ltb_spec (rank h1) (rank h2)), (Z.ltb_spec (rank h2) (rank h1));
      try lia. apply compareKeys_antisym. }
  split; [apply H|]. split.
  - specialize (H hand1 hand1). lia.
  - unfold compareHands.
    destruct (rank hand1 >? rank hand2); [now left|].
    destruct (rank hand1 <? rank hand2); [right; now left|].
    apply compareKeys_range.
Qed.

(** ** Validation, in order *)

Lemma no_throw_after_validation myCards communityCards opponentCount sims g :
  length myCards = 2%nat ->
  (length communityCards <= 5)%nat ->
  1 <= opponentCount <= 8 ->
  forall e,
    fst (calculatePokerOdds myCards communityCards opponentCount sims g)
    <> Throw e.
Proof.
  intros Hmy Hc Hopp e. rewrite validation_passes by assumption.
  destruct (sims <=? 0); [discriminate|].
  destruct (numbers (parseCards myCards)); [|discriminate].
  destruct (numbers (parseCards communityCards)); [|discriminate].
  destruct (trials _ _ _ _ _ _ _) as [[wins ties] g']. discriminate.
Qed.

(** X14. The three checks of [calculatePokerOdds] are made in a fixed
    order, and the first one that fails decides the error: the number of
    hole cards first, then the number of community cards, then the number
    of opponents. A call raises one of these errors only when its check
    fails and the earlier ones pass. *)
Theorem validation_in_order
    (myCards communityCards : list string) (opponentCount sims : Z) (g : Rng) :
  let outcome :=
    fst (calculatePokerOdds myCards communityCards opponentCount sims g) in
  (outcome = Throw HoleCardCount <-> length myCards <> 2%nat) /\
  (outcome = Throw CommunityCardCount <->
   length myCards = 2%nat /\ (5 < length communityCards)%nat) /\
  (outcome = Throw OpponentCount <->
   length myCards = 2%nat /\ (length communityCards <= 5)%nat /\
   (opponentCount < 1 \/ 8 < opponentCount)).
Proof.
  intros outcome.
  destruct (Nat.eq_dec (length myCards) 2) as [Hmy|Hmy].
  2: { assert (outcome = Throw HoleCardCount) as ->.
       { unfold outcome, calculatePokerOdds, parseCards.
         rewrite !length_map.
         destruct (Nat.eqb_spec (length myCards) 2); [contradiction|].
         reflexivity. }
       repeat split; intros; try tauto; try discriminate; lia. }
  destruct (Nat.ltb_spec 5 (length communityCards)) as [Hc|Hc].
  { assert (outcome = Throw CommunityCardCount) as ->.
    { unfold outcome, calculatePokerOdds, parseCards.
      rewrite !length_map, Hmy. cbn [Nat.eqb negb].
      destruct (Nat.ltb_spec 5 (length communityCards)); [|lia].
      now rewrite orb_true_r. }
    repeat split; intros; try tauto; try discriminate; lia. }
  destruct (Z_lt_dec opponentCount 1) as [Hlo|Hlo];
    [|destruct (Z_lt_dec 8 opponentCount) as [Hhi|Hhi]].
  1, 2: assert (outcome = Throw OpponentCount) as ->
      by (unfold outcome, calculatePokerOdds, parseCards;
          rewrite !length_map, Hmy; cbn [Nat.eqb negb];
          destruct (Nat.ltb_spec (length communityCards) 0); [lia|];
          destruct (Nat.ltb_spec 5 (length communityCards)); [lia|];
          cbn [orb];
          destruct (Z.ltb_spec opponentCount 1);
          destruct (Z.gtb_spec opponentCount 8);
          reflexivity || lia);
    repeat split; intros; try tauto; try discriminate; lia.
  pose proof (no_throw_after_validation myCards communityCards opponentCount
                sims g Hmy Hc ltac:(lia)) as Hno.
  fold outcome in Hno.
  repeat split; intros;
    try (exfalso; eapply Hno; eassumption); lia.
Qed.

(** ** The deck of a call *)

Lemma includesCard_iff (knownCards : list JS.value) (c : Z) :
  includesCard knownCards c = true <-> In (JS.Num c) knownCards.
Proof.
  unfold includesCard. rewrite existsb_exists. split.
  - intros ([z| |] & Hin & Hz); try discriminate.
    apply Z.eqb_eq in Hz. now subst.
  - intros Hin. exists (JS.Num c). split; [assumption|apply Z.eqb_refl].
Qed.

Lemma fullDeck_in (c : Z) :
  In c (List.map Z.of_nat (seq 0 52)) <-> 0 <= c < 52.
Proof.
  rewrite in_map_iff. split.
  - intros (n & <- & Hn). apply in_seq in Hn. lia.
  - intros H. exists (Z.to_nat c). split; [lia|]. apply in_seq. lia.
Qed.

Lemma fullDeck_increasing (start len : nat) :
  StronglySorted Z.lt (List.map Z.of_nat (seq start len)).
Proof.
  revert start. induction len as [|n IH]; intros start; simpl.
  - constructor.
  - constructor; [apply IH|].
    apply Forall_forall. intros c Hc. apply in_map_iff in Hc.
    destruct Hc as (k & <- & Hk). apply in_seq in Hk. lia.
Qed.

Lemma filter_increasing (f : Z -> bool) (l : list Z) :
  StronglySorted Z.lt l -> StronglySorted Z.lt (filter f l).
Proof.
  induction 1 as [|x l Hs IH Hx]; simpl; [constructor|].
  destruct (f x); [|assumption].
  constructor; [assumption|].
  rewrite Forall_forall in *. intros y Hy. apply filter_In in Hy.
  now apply Hx.
Qed.

Lemma remainingDeck_increasing (myCards communityCards : list string) :
  StronglySorted Z.lt (remainingDeckOf myCards communityCards).
Proof. apply filter_increasing, fullDeck_increasing. Qed.

Lemma increasing_NoDup (l : list Z) : StronglySorted Z.lt l -> NoDup l.
Proof.
  induction 1 as [|x l Hl IH Hx]; constructor; [|assumption].
  rewrite Forall_forall in Hx. intros Hin. specialize (Hx x Hin). lia.
Qed.

Lemma remainingDeck_in (myCards communityCards : list string) (c : Z) :
  In c (remainingDeckOf myCards communityCards) <->
  0 <= c < 52 /\
  ~ In (JS.Num c) (parseCards myCards ++ parseCards communityCards).
Proof.
  unfold remainingDeckOf.
  rewrite filter_In, fullDeck_in, negb_true_iff.
  rewrite <- includesCard_iff.
  destruct (includesCard _ c); intuition congruence.
Qed.

(** X15. The deck that the trials shuffle holds exactly the codes from 0 to
    51 that are not the code of a known card, each once and in rising
    order; a card string that did not parse removes nothing. *)
Theorem remainingDeck_cards (myCards communityCards : list string) :
  (forall c,
     In c (remainingDeckOf myCards communityCards) <->
     0 <= c < 52 /\
     ~ In (JS.Num c) (parseCards myCards ++ parseCards communityCards)) /\
  StronglySorted Z.lt (remainingDeckOf myCards communityCards) /\
  NoDup (remainingDeckOf myCards communityCards).
Proof.
  split; [apply remainingDeck_in|].
  split; [apply remainingDeck_increasing|].
  apply increasing_NoDup, remainingDeck_increasing.
Qed.

Lemma skipn_nth (l : list Z) (i : nat) :
  (i < length l)%nat -> skipn i l = nth i l 0 :: skipn (S i) l.
Proof.
  revert i. induction l as [|x l IH]; intros i Hi; simpl in Hi; [lia|].
  destruct i as [|i]; [reflexivity|]. simpl. apply IH. lia.
Qed.

Lemma dealOpponents_spec (shuffledDeck : list Z) (n cardIndex : nat) :
  (cardIndex + 2 * n <= length shuffledDeck)%nat ->
  snd (dealOpponents shuffledDeck n cardIndex) = (cardIndex + 2 * n)%nat /\
  concat (fst (dealOpponents shuffledDeck n cardIndex))
  = firstn (2 * n) (skipn cardIndex shuffledDeck) /\
  length (fst (dealOpponents shuffledDeck n cardIndex)) = n /\
  (forall o, In o (fst (dealOpponents shuffledDeck n cardIndex)) ->
             length o = 2%nat).
Proof.
  revert cardIndex. induction n as [|n IH]; intros idx Hlen.
  - simpl. repeat split; try lia; contradiction.
  - cbn [dealOpponents].
    destruct (IH (idx + 2)%nat ltac:(lia)) as (H1 & H2 & H3 & H4).
    destruct (dealOpponents shuffledDeck n (idx + 2)) as [others last].
    cbn [fst snd] in *. split; [lia|]. split; [|split].
    + cbn [concat]. rewrite H2.
      rewrite (skipn_nth shuffledDeck idx) by lia.
      rewrite (skipn_nth shuffledDeck (S idx)) by lia.
      replace (2 * S n)%nat with (S (S (2 * n))) by lia.
      cbn [firstn app].
      replace (idx + 1)%nat with (S idx) by lia.
      replace (idx + 2)%nat with (S (S idx)) by lia. reflexivity.
    + simpl. lia.
    + intros o [<-|Ho]; [reflexivity|now apply H4].
Qed.

Lemma numbers_map (l : list JS.value) (zs : list Z) :
  numbers l = Some zs -> l = List.map JS.Num zs.
Proof.
  revert zs. induction l as [|[z| |] l IH]; intros zs; simpl; try discriminate.
  - now intros [= <-].
  - destruct (numbers l) as [zs'|]; [|discriminate].
    intros [= <-]. simpl. f_equal. now apply IH.
Qed.

Lemma numbers_length (l : list JS.value) (zs : list Z) :
  numbers l = Some zs -> length zs = length l.
Proof.
  intros H. apply numbers_map in H. subst. now rewrite length_map.
Qed.

Lemma deal_from_shuffled (shuffledDeck : list Z) (n needed : nat) :
  (2 * n + needed <= length shuffledDeck)%nat ->
  NoDup shuffledDeck ->
  let dealt := dealOpponents shuffledDeck n 0 in
  let simulated := firstn needed (skipn (snd dealt) shuffledDeck) in
  length (fst dealt) = n /\
  (forall o, In o (fst dealt) -> length o = 2%nat) /\
  length simulated = needed /\
  NoDup (concat (fst dealt) ++ simulated) /\
  (forall c, In c (concat (fst dealt) ++ simulated) -> In c shuffledDeck).
Proof.
  intros Hrange Hnd.
  destruct (dealOpponents_spec shuffledDeck n 0 ltac:(lia))
    as (Hsnd & Hconcat & Hlen & Htwo).
  cbv zeta.
  generalize dependent (dealOpponents shuffledDeck n 0).
  intros [opponentsCards cardIndex]. cbn [fst snd].
  intros -> Hconcat Hlen Htwo. cbn [Nat.add].
  split; [exact Hlen|]. split; [exact Htwo|].
  split; [rewrite length_firstn, length_skipn; lia|].
  assert (shuffledDeck
          = (concat opponentsCards
             ++ firstn needed (skipn (2 * n) shuffledDeck))
            ++ skipn needed (skipn (2 * n) shuffledDeck)) as Hsplit.
  { rewrite Hconcat. cbn [skipn].
    rewrite <- app_assoc, firstn_skipn, firstn_skipn. reflexivity. }
  split.
  - rewrite Hsplit in Hnd. now apply NoDup_app_remove_r in Hnd.
  - intros c Hc. rewrite Hsplit. apply in_or_app. now left.
Qed.

(** X16. In every trial of a call that passed the validation and whose
    cards parsed, each opponent gets two cards, the subject's hand and
    every opponent's hand have exactly seven cards, and the cards dealt in
    the trial are pairwise different cards of the deck: codes from 0 to 51,
    none of them a known card. *)
Theorem trial_deals_seven_card_hands
    (myCards communityCards : list string) (opponentCount : Z) (g : Rng)
    (my community : list Z) :
  length myCards = 2%nat ->
  (length communityCards <= 5)%nat ->
  1 <= opponentCount <= 8 ->
  numbers (parseCards myCards) = Some my ->
  numbers (parseCards communityCards) = Some community ->
  let shuffledDeck :=
    fst (shuffleArray (remainingDeckOf myCards communityCards) g) in
  let dealt := dealOpponents shuffledDeck (Z.to_nat opponentCount) 0 in
  let opponentsCards := fst dealt in
  let simulatedCommunityCards :=
    firstn (5 - length community) (skipn (snd dealt) shuffledDeck) in
  let finalCommunityCards := community ++ simulatedCommunityCards in
  length opponentsCards = Z.to_nat opponentCount /\
  length (my ++ finalCommunityCards) = 7%nat /\
  (forall o, In o opponentsCards ->
             length o = 2%nat /\ length (o ++ finalCommunityCards) = 7%nat) /\
  NoDup (concat opponentsCards ++ simulatedCommunityCards) /\
  (forall c, In c (concat opponentsCards ++ simulatedCommunityCards) ->
             0 <= c < 52 /\ ~ In c (my ++ community)).
Proof.
  intros Hmy Hc Hopp Hnum1 Hnum2.
  pose proof (numbers_length _ _ Hnum1) as Hl1.
  pose proof (numbers_length _ _ Hnum2) as Hl2.
  unfold parseCards in Hl1, Hl2. rewrite length_map in Hl1, Hl2.
  pose proof (deal_in_range myCards communityCards opponentCount g
                Hmy Hc Hopp) as Hrange.
  pose proof (shuffleArray_perm (remainingDeckOf myCards communityCards) g)
    as Hperm.
  pose proof (remainingDeck_in myCards communityCards) as Hin.
  pose proof (increasing_NoDup _ (remainingDeck_increasing
                                    myCards communityCards)) as Hnd.
  cbv zeta.
  generalize dependent (fst (shuffleArray
                               (remainingDeckOf myCards communityCards) g)).
  intros shuffledDeck Hrange Hperm.
  rewrite <- Hl2 in Hrange.
  destruct (deal_from_shuffled shuffledDeck (Z.to_nat opponentCount)
              (5 - length community) Hrange
              (Permutation_NoDup (Permutation_sym Hperm) Hnd))
    as (Hlen & Htwo & Hsim & Hdistinct & Hincl).
  generalize dependent (dealOpponents shuffledDeck
                                      (Z.to_nat opponentCount) 0).
  intros dealt Hlen Htwo Hsim Hdistinct Hincl.
  generalize dependent (firstn (5 - length community)
                               (skipn (snd dealt) shuffledDeck)).
  intros simulated Hsim Hdistinct Hincl.
  split; [exact Hlen|].
  split; [rewrite !length_app; lia|].
  split.
  { intros o Ho. rewrite !length_app, (Htwo o Ho), Hsim.
    split; [reflexivity|lia]. }
  split; [exact Hdistinct|].
  intros c Hdealt.
  assert (In c (remainingDeckOf myCards communityCards)) as Hdeck
    by (apply (Permutation_in _ Hperm), Hincl, Hdealt).
  apply Hin in Hdeck. destruct Hdeck as [Hr Hnot]. split; [assumption|].
  intros Hknown. apply Hnot.
  rewrite (numbers_map _ _ Hnum1), (numbers_map _ _ Hnum2), <- map_app.
  now apply in_map.
Qed.

Lemma trial_deals_seven_card_hands_witness :
  let shuffledDeck :=
    fst (shuffleArray (remainingDeckOf ["As"; "Kd"]%string ["2s"]%string)
                      tieWinLossRng) in
  let dealt := dealOpponents shuffledDeck (Z.to_nat 2) 0 in
  let opponentsCards := fst dealt in
  let simulatedCommunityCards :=
    firstn (5 - length [0]) (skipn (snd dealt) shuffledDeck) in
  let finalCommunityCards := [0] ++ simulatedCommunityCards in
  length opponentsCards = Z.to_nat 2 /\
  length ([12; 37] ++ finalCommunityCards) = 7%nat /\
  (forall o, In o opponentsCards ->
             length o = 2%nat /\ length (o ++ finalCommunityCards) = 7%nat) /\
  NoDup (concat opponentsCards ++ simulatedCommunityCards) /\
  (forall c, In c (concat opponentsCards ++ simulatedCommunityCards) ->
             0 <= c < 52 /\ ~ In c ([12; 37] ++ [0])).
Proof.
  apply (trial_deals_seven_card_hands
           ["As"; "Kd"]%string ["2s"]%string 2 tieWinLossRng [12; 37] [0]);
    try reflexivity; simpl; lia.
Defined.

(** ** The size of the deck and the calls of the random source *)

Lemma parseCard_range (cardStr : string) (c : Z) :
  parseCard cardStr = JS.Num c -> 0 <= c < 52.
Proof.
  destruct cardStr as [|a [|b rest]].
  - discriminate.
  - unfold parseCard. cbn [String.get JS.prop].
    destruct (JS.prop RANK_MAP (Some a)); discriminate.
  - change (parseCard (String a (String b rest)))
      with (parseCard (String a (String b EmptyString))).
    intros H. apply parseCard_inv in H.
    destruct H as (rank & suit & Hr & Hs & ->).
    apply RANK_MAP_range in Hr. apply SUIT_MAP_range in Hs. lia.
Qed.

Lemma parseCards_range (cardStrs : list string) (zs : list Z) (c : Z) :
  numbers (parseCards cardStrs) = Some zs -> In c zs -> 0 <= c < 52.
Proof.
  intros Hnum Hin. apply numbers_map in Hnum.
  assert (In (JS.Num c) (parseCards cardStrs)) as H
    by (rewrite Hnum; now apply in_map).
  unfold parseCards in H. apply in_map_iff in H.
  destruct H as (str & Hstr & _). now apply parseCard_range in Hstr.
Qed.

Lemma remainingDeck_length (myCards communityCards : list string)
    (my community : list Z) :
  numbers (parseCards myCards) = Some my ->
  numbers (parseCards communityCards) = Some community ->
  NoDup (my ++ community) ->
  (length (remainingDeckOf myCards communityCards)
   + (length myCards + length communityCards) = 52)%nat.
Proof.
  intros Hnum1 Hnum2 Hnd.
  pose proof (numbers_length _ _ Hnum1) as Hl1.
  pose proof (numbers_length _ _ Hnum2) as Hl2.
  unfold parseCards in Hl1, Hl2. rewrite length_map in Hl1, Hl2.
  assert (forall c, In (JS.Num c) (parseCards myCards ++ parseCards communityCards)
                    <-> In c (my ++ community)) as Hknown.
  { intros c.
    rewrite (numbers_map _ _ Hnum1), (numbers_map _ _ Hnum2), <- map_app.
    split; [|apply in_map].
    intros H. apply in_map_iff in H. now destruct H as (z & [= ->] & H). }
  assert (Permutation ((my ++ community)
                       ++ remainingDeckOf myCards communityCards)
                      (List.map Z.of_nat (seq 0 52))) as Hperm.
  { apply NoDup_Permutation.
    - apply NoDup_app; [assumption| |].
      + apply increasing_NoDup, remainingDeck_increasing.
      + intros c Hc Hdeck. apply remainingDeck_in in Hdeck.
        now apply Hdeck, Hknown.
    - apply increasing_NoDup, fullDeck_increasing.
    - intros c. rewrite in_app_iff, remainingDeck_in, fullDeck_in, Hknown.
      split.
      + intros [Hc|[Hc _]]; [|assumption].
        apply in_app_or in Hc.
        destruct Hc as [Hc|Hc]; eauto using parseCards_range.
      + intros Hc. destruct (in_dec Z.eq_dec c (my ++ community)); tauto. }
  apply Permutation_length in Hperm.
  rewrite !length_app, length_map, length_seq in Hperm. lia.
Qed.

Lemma trial_draw my community deck opp counters g :
  draw (snd (trial my community deck opp counters g)) = draw g.
Proof.
  unfold trial, shuffleArray.
  pose proof (shuffleFrom_draw deck (length deck - 1) g) as H.
  destruct (shuffleFrom deck (length deck - 1) g) as [shuffled g'].
  destruct (dealOpponents shuffled (Z.to_nat opp) 0). exact H.
Qed.

Lemma trials_draw n my community deck opp counters g :
  draw (snd (trials n my community deck opp counters g)) = draw g.
Proof.
  revert counters g. induction n as [|n IH]; intros counters g.
  - reflexivity.
  - cbn [trials].
    pose proof (trial_draw my community deck opp counters g) as Ht.
    destruct (trial my community deck opp counters g) as [c' g'].
    cbn [snd] in Ht. now rewrite IH, Ht.
Qed.

(** X17. With valid inputs, a positive number of trials and known cards
    that are pairwise different, the deck of the call has
    [50 - length communityCards] cards, and the call asks the random source
    [49 - length communityCards] times in every trial, one time for each
    step of the shuffle of the whole deck: the number of calls depends on
    the number of trials and of community cards, not on the number of
    opponents, although a trial only uses the first
    [2 * opponentCount + 5 - length communityCards] cards of the shuffle. *)
Theorem calculatePokerOdds_random_calls
    (myCards communityCards : list string) (opponentCount sims : Z) (g : Rng)
    (my community : list Z) :
  length myCards = 2%nat ->
  (length communityCards <= 5)%nat ->
  1 <= opponentCount <= 8 ->
  0 < sims ->
  numbers (parseCards myCards) = Some my ->
  numbers (parseCards communityCards) = Some community ->
  NoDup (my ++ community) ->
  let g' :=
    snd (calculatePokerOdds myCards communityCards opponentCount sims g) in
  length (remainingDeckOf myCards communityCards)
  = (50 - length communityCards)%nat /\
  calls g'
  = (calls g + Z.to_nat sims * (49 - length communityCards))%nat /\
  draw g' = draw g.
Proof.
  intros Hmy Hcommunity Hopp Hsims Hnum1 Hnum2 Hnd.
  pose proof (remainingDeck_length myCards communityCards my community
                Hnum1 Hnum2 Hnd) as Hlen.
  cbv zeta. split; [lia|].
  rewrite validation_passes by assumption.
  destruct (Z.leb_spec sims 0) as [?|_]; [lia|].
  rewrite Hnum1, Hnum2.
  pose proof (trials_calls (Z.to_nat sims) my community
                (remainingDeckOf myCards communityCards) opponentCount
                (0, 0) g) as Hcalls.
  pose proof (trials_draw (Z.to_nat sims) my community
                (remainingDeckOf myCards communityCards) opponentCount
                (0, 0) g) as Hdraw.
  fold (remainingDeckOf myCards communityCards).
  destruct (trials _ _ _ _ _ _ _) as [[wins ties] g'].
  cbn [snd] in *. split; [|exact Hdraw].
  rewrite Hcalls.
  replace (length (remainingDeckOf myCards communityCards) - 1)%nat
    with (49 - length communityCards)%nat by lia.
  reflexivity.
Qed.

Lemma calculatePokerOdds_random_calls_witness :
  let g' :=
    snd (calculatePokerOdds ["As"; "Kd"]%string ["2s"]%string 2 3
                            tieWinLossRng) in
  length (remainingDeckOf ["As"; "Kd"]%string ["2s"]%string)
  = (50 - length ["2s"]%string)%nat /\
  calls g'
  = (calls tieWinLossRng + Z.to_nat 3 * (49 - length ["2s"]%string))%nat /\
  draw g' = draw tieWinLossRng.
Proof.
  apply (calculatePokerOdds_random_calls
           ["As"; "Kd"]%string ["2s"]%string 2 3 tieWinLossRng [12; 37] [0]);
    try reflexivity; simpl; try lia.
  repeat constructor; simpl; intuition discriminate.
Defined.
